(** * gnmi-gateway: the per-target connection state ([gateway/connections/state.go])

    A shallow embedding of [TargetState] and its receivers: [Equal],
    [connect], [connectWithLock], [disconnect], [disconnected], [reconnect],
    [handleUpdate] and [rejectUpdate].

    Conventions.
    - Protobuf messages that the code only reads are records held by value.
    - The notification carried by a [SubscribeResponse_Update] and the [Path]
      its [Prefix] points to are written by [handleUpdate]; both live in a
      store indexed by locations, so that writing through a pointer and
      handing the same pointer on are visible in the model.
    - The cache target ([cache.Target]) is an external collaborator; the
      model records the calls made on it, in order.
    - A Go panic (nil pointer dereference) is an explicit outcome. *)

From stdpp Require Import gmap strings list fin_maps.
From Stdlib Require Import ZArith.

Local Open Scope string_scope.
Local Open Scope list_scope.

(** ** Protobuf messages *)

(** A pointer into one of the two stores. *)
Definition loc := positive.

Module gnmipb.

(** [gnmipb.PathElem]: a name and a [map[string]string] of keys. *)
Record PathElem := {
  Name : string;
  Key : gmap string string
}.

(** [gnmipb.Path]. *)
Record Path := {
  Element : list string;
  Origin : string;
  Elem : list PathElem;
  Target : string
}.

(** [&gnmipb.Path{}]: every field at its zero value. *)
Definition Path_zero : Path :=
  {| Element := []; Origin := EmptyString; Elem := []; Target := EmptyString |}.

(** [gnmipb.Update]; the field [Path] is a pointer and may be nil.  The typed
    value is kept opaque. *)
Record Update := {
  Update_Path : option Path;
  Val : string;
  Duplicates : Z
}.

(** [gnmipb.Notification]; [Prefix] is a pointer to a [Path] in the store,
    nil when the sender left it out. *)
Record Notification := {
  Timestamp : Z;
  Prefix : option loc;
  Alias : string;
  Notification_Update : list Update;
  Delete : list Path;
  Atomic : bool
}.

(** The oneof [SubscribeResponse.Response]. *)
Inductive isSubscribeResponse_Response :=
| SubscribeResponse_Update (Update : loc)
| SubscribeResponse_SyncResponse (SyncResponse : bool)
| SubscribeResponse_Error (code : Z) (message : string).

(** [gnmipb.SubscribeResponse]; [Response] is nil when the oneof is unset. *)
Record SubscribeResponse := {
  Response : option isSubscribeResponse_Response
}.

(** The generated nil-safe getters used by the code. *)
Definition GetPath (u : Update) : option Path := Update_Path u.

Definition GetElem (p : option Path) : list PathElem :=
  match p with
  | Some p => Elem p
  | None => []
  end.

Definition GetUpdate (n : Notification) : list Update := Notification_Update n.

Definition GetPrefix (n : Notification) : option loc := Prefix n.

End gnmipb.

Module targetpb.

(** [targetpb.Credentials]. *)
Record Credentials := {
  Username : string;
  Password : string
}.

(** [targetpb.Target]; [Credentials] is a pointer and may be nil. *)
Record Target := {
  Addresses : list string;
  Credentials_ : option Credentials
}.

End targetpb.

(** [proto.Message]: the handler receives an interface value; only its dynamic
    type matters to the code. *)
Inductive Message :=
| Message_SubscribeResponse (resp : gnmipb.SubscribeResponse)
| Message_other (typeName : string).

(** ** Errors and outcomes *)

(** An [error] value: [errors.New] with its text, or [fmt.Errorf] with its
    format string (the formatted arguments are not kept). *)
Inductive error :=
| errors_New (text : string)
| fmt_Errorf (format : string).

(** What a call does: it returns (for a function with an [error] result,
    [Return None] is the nil error), or it panics. *)
Inductive outcome (A : Type) :=
| Return (a : A)
| Panic.
Arguments Return {A} a.
Arguments Panic {A}.

(** ** The rejection filter *)

(** The body of the loop of [rejectUpdate] once [path] is bound to
    [update.GetPath().GetElem()]: [Some e] when the body returns the error
    [e], [None] when the loop goes on to the next update. *)
Definition rejectUpdate_path (path : list gnmipb.PathElem) : option error :=
  match path with
  | path0 :: path1 :: _ =>
      (* len(path) >= 2 *)
      match
        (if String.eqb (gnmipb.Name path0) "interfaces"
            && String.eqb (gnmipb.Name path1) "interface"
         then match gnmipb.Key path1 !! "name" with
              | Some value =>
                  if String.eqb value "interface"
                  then Some (errors_New "bug for Arista interface path")
                  else None
              | None => None
              end
         else None)
      with
      | Some e => Some e
      | None =>
          match
            (if String.eqb (gnmipb.Name path0) "network-instances"
                && String.eqb (gnmipb.Name path1) "network-instance"
             then match gnmipb.Key path1 !! "name" with
                  | Some value =>
                      if String.eqb value "network-instance"
                      then Some (errors_New "bug for Arista isis adjacency path")
                      else None
                  | None => None
                  end
             else None)
          with
          | Some e => Some e
          | None =>
              if String.eqb (gnmipb.Name path0) "netconf-state"
              then Some (errors_New "bug for netconf-state path")
              else None
          end
      end
  | _ => None
  end.

Definition rejectUpdate_body (update : gnmipb.Update) : option error :=
  rejectUpdate_path (gnmipb.GetElem (gnmipb.GetPath update)).

(** [for _, update := range ...]: the first error returned by the body. *)
Fixpoint rejectUpdate_loop (updates : list gnmipb.Update) : option error :=
  match updates with
  | [] => None
  | update :: rest =>
      match rejectUpdate_body update with
      | Some e => Some e
      | None => rejectUpdate_loop rest
      end
  end.

(** [rejectUpdate(notification) error]; the receiver is not used. *)
Definition rejectUpdate (notification : gnmipb.Notification) : option error :=
  rejectUpdate_loop (gnmipb.GetUpdate notification).

(** ** The client library ([github.com/openconfig/gnmi/client]) *)

(** [gnmipb.SubscribeRequest]: the code only hands it to [client.NewQuery]. *)
Inductive SubscribeRequest :=
| SubscribeRequest_opaque (text : string).

Module client.

(** [client.Credentials]. *)
Record Credentials := {
  Username : string;
  Password : string
}.

(** [tls.Config], as far as the code sets it. *)
Record tlsConfig := {
  InsecureSkipVerify : bool
}.

(** [client.Query], as far as the code sets it.  [ProtoHandler] is always
    the receiver's [handleUpdate] and is not a field of the model. *)
Record Query := {
  Addrs : list string;
  Credentials_ : option Credentials;
  TLS : option tlsConfig;
  Target : string;
  Timeout : Z;
  SubReq : option SubscribeRequest
}.

(** [client.ReconnectClient]: the handle made by [client.Reconnect]. *)
Record ReconnectClient := {
  closed : bool
}.

(** [client.Reconnect(&client.BaseClient{}, disconnect, nil)]. *)
Definition Reconnect : ReconnectClient := {| closed := false |}.

End client.

(** ** TargetState *)

(** [configuration.GatewayConfig], as far as the receivers read it (logging is
    not modelled). *)
Record GatewayConfig := {
  TargetDialTimeout : Z
}.

(** [TargetState].  The field [targetCache] is the external cache target: its
    place is taken by the list of calls in [World]. *)
Record TargetState := {
  config : GatewayConfig;
  name : string;
  connected : bool;
  connecting : bool;
  client_ : option client.ReconnectClient;
  stopped : bool;
  target : targetpb.Target;
  request : SubscribeRequest
}.

Definition set_connected (b : bool) (t : TargetState) : TargetState :=
  {| config := config t; name := name t; connected := b;
     connecting := connecting t; client_ := client_ t; stopped := stopped t;
     target := target t; request := request t |}.

Definition set_connecting (b : bool) (t : TargetState) : TargetState :=
  {| config := config t; name := name t; connected := connected t;
     connecting := b; client_ := client_ t; stopped := stopped t;
     target := target t; request := request t |}.

Definition set_client (c : option client.ReconnectClient) (t : TargetState) : TargetState :=
  {| config := config t; name := name t; connected := connected t;
     connecting := connecting t; client_ := c; stopped := stopped t;
     target := target t; request := request t |}.

Definition set_stopped (b : bool) (t : TargetState) : TargetState :=
  {| config := config t; name := name t; connected := connected t;
     connecting := connecting t; client_ := client_ t; stopped := b;
     target := target t; request := request t |}.

(** *** Equal *)

(** [for i, addr := range t.target.Addresses]: [Return (Some b)] when the body
    returns [b], [Return None] when the loop ends, [Panic] on an index out of
    range in [other.Addresses[i]]. *)
Fixpoint Equal_loop (i : nat) (addresses other_Addresses : list string)
  : outcome (option bool) :=
  match addresses with
  | [] => Return None
  | addr :: rest =>
      match other_Addresses !! i with
      | None => Panic
      | Some other_addr =>
          if negb (String.eqb other_addr addr)
          then Return (Some false)
          else Equal_loop (S i) rest other_Addresses
      end
  end.

(** [Equal(other) bool].  The credentials are read through the pointers [t.target.Credentials] and
    [other.Credentials] without a nil check. *)
Definition Equal (t : TargetState) (other : targetpb.Target) : outcome bool :=
  if negb (length (targetpb.Addresses (target t)) =? length (targetpb.Addresses other))%nat
  then Return false
  else
    match Equal_loop 0 (targetpb.Addresses (target t)) (targetpb.Addresses other) with
    | Panic => Panic
    | Return (Some b) => Return b
    | Return None =>
        match targetpb.Credentials_ (target t), targetpb.Credentials_ other with
        | Some mine, Some theirs =>
            if negb (String.eqb (targetpb.Username mine) (targetpb.Username theirs))
            then Return false
            else if negb (String.eqb (targetpb.Password mine) (targetpb.Password theirs))
            then Return false
            else Return true
        | _, _ => Panic
        end
    end.

(** ** The cache target and the world *)

(** A call on [t.targetCache].  [Cache_GnmiUpdate] keeps the pointer passed
    and what the notification and its prefix hold at the time of the call. *)
Inductive CacheCall :=
| Cache_Connect
| Cache_Disconnect
| Cache_Reset
| Cache_Sync
| Cache_GnmiUpdate (ptr : loc) (notification : gnmipb.Notification) (prefix_path : gnmipb.Path).

(** The target state, the two stores, and the calls made on the cache target
    so far (oldest first). *)
Record World := {
  ts : TargetState;
  notifications : gmap loc gnmipb.Notification;
  paths : gmap loc gnmipb.Path;
  cache_calls : list CacheCall
}.

Definition with_ts (f : TargetState → TargetState) (w : World) : World :=
  {| ts := f (ts w); notifications := notifications w; paths := paths w;
     cache_calls := cache_calls w |}.

Definition cache_call (c : CacheCall) (w : World) : World :=
  {| ts := ts w; notifications := notifications w; paths := paths w;
     cache_calls := cache_calls w ++ [c] |}.

Definition set_Prefix (p : option loc) (n : gnmipb.Notification) : gnmipb.Notification :=
  {| gnmipb.Timestamp := gnmipb.Timestamp n; gnmipb.Prefix := p;
     gnmipb.Alias := gnmipb.Alias n;
     gnmipb.Notification_Update := gnmipb.Notification_Update n;
     gnmipb.Delete := gnmipb.Delete n; gnmipb.Atomic := gnmipb.Atomic n |}.

Definition set_Target (s : string) (p : gnmipb.Path) : gnmipb.Path :=
  {| gnmipb.Element := gnmipb.Element p; gnmipb.Origin := gnmipb.Origin p;
     gnmipb.Elem := gnmipb.Elem p; gnmipb.Target := s |}.

(** [v.Update.Prefix = &gnmipb.Path{}]: a new [Path] object is allocated and
    the notification at [l] is made to point to it. *)
Definition assign_fresh_Prefix (l : loc) (n : gnmipb.Notification) (w : World) : World :=
  let p := fresh (dom (paths w)) in
  {| ts := ts w;
     notifications := <[l := set_Prefix (Some p) n]> (notifications w);
     paths := <[p := gnmipb.Path_zero]> (paths w);
     cache_calls := cache_calls w |}.

(** [v.Update.Prefix.Target = s]: a write into the [Path] object at [p]. *)
Definition assign_Target (p : loc) (path : gnmipb.Path) (s : string) (w : World) : World :=
  {| ts := ts w; notifications := notifications w;
     paths := <[p := set_Target s path]> (paths w);
     cache_calls := cache_calls w |}.

(** ** The calls made by the acquisition loop *)

(** A call made by [connectWithLock] on the connection slot, on the lock, or
    on the receiver's own [connect]; the two try-calls carry their answer. *)
Inductive GateCall :=
| Call_TryAcquire (acquired : bool)
| Call_Try (acquired : bool)
| Call_connect
| Call_Release
| Call_Unlock.

(** What the rest of the process does during one iteration of the loop: the
    answer the semaphore gives to [TryAcquire(1)] and the lock to [Try()] if
    they are asked, and whether another goroutine calls [disconnect()] before
    the loop condition is read again. *)
Record Interference := {
  slot_free : bool;
  lock_free : bool;
  disconnect_called : bool
}.

(** The local variables of [connectWithLock] with the receiver and the calls
    made so far. *)
Record LoopState := {
  loop_t : TargetState;
  connectionSlotAcquired : bool;
  connectionLockAcquired : bool;
  gate_calls : list GateCall
}.

(** ** Operations on one TargetState *)

(** An operation that some goroutine runs on the target state: the receivers
    of the file, [handleUpdate] with the message it is given. *)
Inductive Op :=
| Op_connect
| Op_disconnect
| Op_disconnected
| Op_reconnect
| Op_handleUpdate (msg : Message).

Section Receivers.

(** The external collaborators, as far as their answers matter:
    [client.NewQuery], [Query.Validate], the error returned by
    [ReconnectClient.Close], and the error returned by
    [cache.Target.GnmiUpdate] given the calls made on the cache target up
    to and including that one. *)
Variable NewQuery : SubscribeRequest → client.Query + error.
Variable Validate : client.Query → option error.
Variable Close_error : client.ReconnectClient → option error.
Variable GnmiUpdate_error : list CacheCall → option error.

(** The query that [connect] builds from the result of [client.NewQuery]. *)
Definition connect_query (t : TargetState) (query : client.Query) : client.Query :=
  {| client.Addrs := targetpb.Addresses (target t);
     client.Credentials_ :=
       match targetpb.Credentials_ (target t) with
       | Some c =>
           Some {| client.Username := targetpb.Username c;
                   client.Password := targetpb.Password c |}
       | None => client.Credentials_ query
       end;
     client.TLS := Some {| client.InsecureSkipVerify := true |};
     client.Target := name t;
     client.Timeout := TargetDialTimeout (config t);
     client.SubReq := client.SubReq query |}.

(** [connect()], up to the point where [Subscribe] blocks.  While it blocks
    the library runs [handleUpdate] and [disconnected] as callbacks; those are
    operations of their own. *)
Definition connect (t : TargetState) : TargetState :=
  let t := set_connecting true t in
  match NewQuery (request t) with
  | inr _ => t
  | inl query =>
      match Validate (connect_query t query) with
      | Some _ => t
      | None => set_client (Some client.Reconnect) t
      end
  end.

(** [t.client.Close()]: a nil [t.client] makes the call panic; otherwise the
    handle is closed and the library's error is returned. *)
Definition client_Close (t : TargetState) : TargetState * outcome (option error) :=
  match client_ t with
  | None => (t, Panic)
  | Some c => (set_client (Some {| client.closed := true |}) t, Return (Close_error c))
  end.

(** [disconnect() error]. *)
Definition disconnect (t : TargetState) : TargetState * outcome (option error) :=
  let t := set_stopped true t in
  client_Close t.

(** [reconnect() error]. *)
Definition reconnect (t : TargetState) : TargetState * outcome (option error) :=
  client_Close t.

(** [disconnected()]. *)
Definition disconnected (w : World) : World :=
  let w := with_ts (set_connected false) w in
  let w := cache_call Cache_Disconnect w in
  cache_call Cache_Reset w.

(** The case [gnmipb.SubscribeResponse_Update] of [handleUpdate]; [l] is
    the pointer [v.Update]. *)
Definition handleUpdate_Update (w : World) (l : loc) : World * outcome (option error) :=
  match notifications w !! l with
  | None => (w, Panic)
  | Some n =>
      let w :=
        match gnmipb.GetPrefix n with
        | None => assign_fresh_Prefix l n w
        | Some _ => w
        end in
      match notifications w !! l with
      | None => (w, Panic)
      | Some n =>
          match gnmipb.Prefix n with
          | None => (w, Panic)
          | Some p =>
              match paths w !! p with
              | None => (w, Panic)
              | Some path =>
                  let w :=
                    if String.eqb (gnmipb.Target path) EmptyString
                    then assign_Target p path (name (ts w)) w
                    else w in
                  match rejectUpdate n with
                  | Some _ => (w, Return None)
                  | None =>
                      match paths w !! p with
                      | None => (w, Panic)
                      | Some path =>
                          let w := cache_call (Cache_GnmiUpdate l n path) w in
                          match GnmiUpdate_error (cache_calls w) with
                          | Some _ =>
                              (w, Return (Some (fmt_Errorf
                                 "targetCache cache update error: %t: %+v")))
                          | None => (w, Return None)
                          end
                      end
                  end
              end
          end
      end
  end.

(** The first statement of [handleUpdate]: [if !t.connected { ... }]. *)
Definition handleUpdate_connect (w : World) : World :=
  if negb (connected (ts w))
  then with_ts (set_connected true) (cache_call Cache_Connect w)
  else w.

(** [handleUpdate(msg proto.Message) error]. *)
Definition handleUpdate (w : World) (msg : Message) : World * outcome (option error) :=
  let w := handleUpdate_connect w in
  match msg with
  | Message_other _ =>
      (w, Return (Some (fmt_Errorf "failed to type assert message %#v")))
  | Message_SubscribeResponse resp =>
      match gnmipb.Response resp with
      | Some (gnmipb.SubscribeResponse_Update v_Update) =>
          handleUpdate_Update w v_Update
      | Some (gnmipb.SubscribeResponse_SyncResponse _) =>
          (cache_call Cache_Sync w, Return None)
      | Some (gnmipb.SubscribeResponse_Error _ _) =>
          (w, Return (Some (fmt_Errorf "error in response: %s")))
      | None =>
          (w, Return (Some (fmt_Errorf "unknown response %T: %t")))
      end
  end.

(** *** connectWithLock *)

(** One pass through the body of the [for !t.stopped] loop. *)
Definition connectWithLock_body (e : Interference) (s : LoopState) : LoopState :=
  let s :=
    if negb (connectionSlotAcquired s)
    then {| loop_t := loop_t s;
            connectionSlotAcquired := slot_free e;
            connectionLockAcquired := connectionLockAcquired s;
            gate_calls := gate_calls s ++ [Call_TryAcquire (slot_free e)] |}
    else s in
  if connectionSlotAcquired s
  then
    let s :=
      if negb (connectionLockAcquired s)
      then {| loop_t := loop_t s;
              connectionSlotAcquired := connectionSlotAcquired s;
              connectionLockAcquired := lock_free e;
              gate_calls := gate_calls s ++ [Call_Try (lock_free e)] |}
      else s in
    if connectionLockAcquired s
    then {| loop_t := connect (loop_t s);
            connectionSlotAcquired := connectionSlotAcquired s;
            connectionLockAcquired := connectionLockAcquired s;
            gate_calls := gate_calls s ++ [Call_connect] |}
    else s
  else s.

(** The loop, run against a finite list of interferences, one per iteration.
    [None]: the list is used up and the loop is still running.
    [Some Panic]: a concurrent [disconnect()] panicked, which ends the
    process.  [Some (Return s)]: the loop condition was read as false. *)
Fixpoint connectWithLock_loop (env : list Interference) (s : LoopState)
  : option (outcome LoopState) :=
  if stopped (loop_t s)
  then Some (Return s)
  else
    match env with
    | [] => None
    | e :: env =>
        let s := connectWithLock_body e s in
        if disconnect_called e
        then
          match disconnect (loop_t s) with
          | (_, Panic) => Some Panic
          | (t, Return _) =>
              connectWithLock_loop env
                {| loop_t := t;
                   connectionSlotAcquired := connectionSlotAcquired s;
                   connectionLockAcquired := connectionLockAcquired s;
                   gate_calls := gate_calls s |}
          end
        else connectWithLock_loop env s
    end.

(** The two releases after the loop. *)
Definition connectWithLock_release (s : LoopState) : list GateCall :=
  let calls := gate_calls s in
  let calls := if connectionSlotAcquired s then calls ++ [Call_Release] else calls in
  if connectionLockAcquired s then calls ++ [Call_Unlock] else calls.

(** [connectWithLock(connectionSlot, lock)]: the receiver when the function
    returns and every call it made on the slot, the lock and [connect]. *)
Definition connectWithLock (env : list Interference) (t : TargetState)
  : option (outcome (TargetState * list GateCall)) :=
  match
    connectWithLock_loop env
      {| loop_t := t; connectionSlotAcquired := false;
         connectionLockAcquired := false; gate_calls := [] |}
  with
  | None => None
  | Some Panic => Some Panic
  | Some (Return s) => Some (Return (loop_t s, connectWithLock_release s))
  end.

(** *** Sequences of operations *)

Definition set_ts (t : TargetState) (w : World) : World := with_ts (λ _, t) w.

Definition forget {A} (o : outcome A) : outcome unit :=
  match o with
  | Return _ => Return tt
  | Panic => Panic
  end.

(** One operation on the world. *)
Definition step (w : World) (op : Op) : World * outcome unit :=
  match op with
  | Op_connect => (with_ts connect w, Return tt)
  | Op_disconnect =>
      let '(t, o) := disconnect (ts w) in (set_ts t w, forget o)
  | Op_disconnected => (disconnected w, Return tt)
  | Op_reconnect =>
      let '(t, o) := reconnect (ts w) in (set_ts t w, forget o)
  | Op_handleUpdate msg =>
      let '(w, o) := handleUpdate w msg in (w, forget o)
  end.

(** A sequence of operations, one after the other; a panic ends the
    process, and the world is then the one at the panic. *)
Fixpoint run (ops : list Op) (w : World) : World * outcome unit :=
  match ops with
  | [] => (w, Return tt)
  | op :: ops =>
      match step w op with
      | (w, Panic) => (w, Panic)
      | (w, Return _) => run ops w
      end
  end.

(** ** The order of the calls on the cache target *)

(** What a call does to the connection state of the cache target: [Connect]
    sets it, [Disconnect] clears it, the other calls leave it. *)
Definition cache_call_state (b : bool) (c : CacheCall) : bool :=
  match c with
  | Cache_Connect => true
  | Cache_Disconnect => false
  | _ => b
  end.

(** The connection state of the cache target after a list of calls (oldest
    first) on a target that starts disconnected. *)
Definition cache_state (calls : list CacheCall) : bool :=
  fold_left cache_call_state calls false.

(** The calls that carry data: [Sync] and [GnmiUpdate]. *)
Definition carries_data (c : CacheCall) : bool :=
  match c with
  | Cache_Sync | Cache_GnmiUpdate _ _ _ => true
  | _ => false
  end.

(** Every [Connect] finds the cache target disconnected and every call that
    carries data finds it connected. *)
Definition calls_in_order (calls : list CacheCall) : Prop :=
  ∀ pre c post, calls = pre ++ c :: post →
    (c = Cache_Connect → cache_state pre = false)
    ∧ (carries_data c = true → cache_state pre = true).

(** The flag [connected] agrees with the cache target, whose calls so far are
    in order. *)
Definition cache_agrees (w : World) : Prop :=
  connected (ts w) = cache_state (cache_calls w)
  ∧ calls_in_order (cache_calls w).

(** ** Invariants of the target state and of the acquisition loop *)

(** A stopped target state has a client: [stopped] is only set by
    [disconnect], which returns only when [t.client] is not nil. *)
Definition stopped_has_client (t : TargetState) : Prop :=
  stopped t = true → is_Some (client_ t).

(** Every call of [connect] comes after a successful [TryAcquire] and a
    successful [Try]. *)
Definition connects_guarded (calls : list GateCall) : Prop :=
  ∀ pre post, calls = pre ++ Call_connect :: post →
    Call_TryAcquire true ∈ pre ∧ Call_Try true ∈ pre.

(** What holds of the local variables at the head of every iteration: each
    flag tells whether the try-call has succeeded, nothing has been released,
    and the calls of [connect] so far are guarded. *)
Definition loop_invariant (s : LoopState) : Prop :=
  (connectionSlotAcquired s = true ↔ Call_TryAcquire true ∈ gate_calls s)
  ∧ (connectionLockAcquired s = true ↔ Call_Try true ∈ gate_calls s)
  ∧ (Call_Release ∉ gate_calls s)
  ∧ (Call_Unlock ∉ gate_calls s)
  ∧ connects_guarded (gate_calls s).

(** ** Sample data *)

Definition elem (n : string) (k : gmap string string) : gnmipb.PathElem :=
  {| gnmipb.Name := n; gnmipb.Key := k |}.

Definition path_of (elems : list gnmipb.PathElem) : gnmipb.Path :=
  {| gnmipb.Element := []; gnmipb.Origin := EmptyString; gnmipb.Elem := elems;
     gnmipb.Target := EmptyString |}.

Definition update_of (elems : list gnmipb.PathElem) : gnmipb.Update :=
  {| gnmipb.Update_Path := Some (path_of elems); gnmipb.Val := "1";
     gnmipb.Duplicates := 0 |}.

Definition notification_of (prefix : option loc) (updates : list gnmipb.Update)
  : gnmipb.Notification :=
  {| gnmipb.Timestamp := 1600000000; gnmipb.Prefix := prefix;
     gnmipb.Alias := EmptyString; gnmipb.Notification_Update := updates;
     gnmipb.Delete := []; gnmipb.Atomic := false |}.

(** The four paths of the filter's test cases. *)
Definition path_interface_self : list gnmipb.PathElem :=
  [elem "interfaces" ∅; elem "interface" {["name" := "interface"]}].

Definition path_network_instance_self : list gnmipb.PathElem :=
  [elem "network-instances" ∅;
   elem "network-instance" {["name" := "network-instance"]}].

Definition path_interface_eth0 : list gnmipb.PathElem :=
  [elem "interfaces" ∅; elem "interface" {["name" := "eth0"]}].

Definition path_netconf_state_only : list gnmipb.PathElem :=
  [elem "netconf-state" ∅].

Definition path_netconf_state_capabilities : list gnmipb.PathElem :=
  [elem "netconf-state" ∅; elem "capabilities" ∅].

(** A target with two addresses and credentials, and the same without. *)
Definition target_with_credentials : targetpb.Target :=
  {| targetpb.Addresses := ["10.0.0.1:6030"; "10.0.0.2:6030"];
     targetpb.Credentials_ :=
       Some {| targetpb.Username := "admin"; targetpb.Password := "secret" |} |}.

Definition target_without_credentials : targetpb.Target :=
  {| targetpb.Addresses := ["10.0.0.1:6030"; "10.0.0.2:6030"];
     targetpb.Credentials_ := None |}.

(** A sample target state: every flag at its zero value and no client. *)
Definition new_TargetState (n : string) (tg : targetpb.Target) : TargetState :=
  {| config := {| TargetDialTimeout := 10 |}; name := n; connected := false;
     connecting := false; client_ := None; stopped := false; target := tg;
     request := SubscribeRequest_opaque "subscribe" |}.

Definition new_World (t : TargetState) (ns : gmap loc gnmipb.Notification)
  (ps : gmap loc gnmipb.Path) : World :=
  {| ts := t; notifications := ns; paths := ps; cache_calls := [] |}.

(** The pointer [l] points to the notification [n], and the prefix of [n],
    when it is not nil, points to a [Path]: what holds of every pointer that
    the handler is given. *)
Definition valid_notification (w : World) (l : loc) (n : gnmipb.Notification) : Prop :=
  notifications w !! l = Some n
  ∧ ∀ p, gnmipb.Prefix n = Some p → is_Some (paths w !! p).

Definition data_update (l : loc) : Message :=
  Message_SubscribeResponse
    {| gnmipb.Response := Some (gnmipb.SubscribeResponse_Update l) |}.

Definition sync_response : Message :=
  Message_SubscribeResponse
    {| gnmipb.Response := Some (gnmipb.SubscribeResponse_SyncResponse true) |}.

(** Collaborators that never fail. *)
Definition NewQuery_ok (r : SubscribeRequest) : client.Query + error :=
  inl {| client.Addrs := []; client.Credentials_ := None; client.TLS := None;
         client.Target := EmptyString; client.Timeout := 0;
         client.SubReq := Some r |}.

Definition no_error {A} (_ : A) : option error := None.

(** Three worlds with one notification at location 1: a well-formed update
    without a prefix; the same followed by an update that the filter rejects;
    and a well-formed update whose prefix already names a target. *)
Definition world_accepted : World :=
  new_World (new_TargetState "router1" target_with_credentials)
    {[1%positive := notification_of None [update_of path_interface_eth0]]} ∅.

Definition world_rejected_sibling : World :=
  new_World (new_TargetState "router1" target_with_credentials)
    {[1%positive :=
        notification_of None
          [update_of path_interface_eth0;
           update_of path_netconf_state_capabilities]]} ∅.

Definition world_with_designator : World :=
  new_World (new_TargetState "router1" target_with_credentials)
    {[1%positive := notification_of (Some 7%positive) [update_of path_interface_eth0]]}
    {[7%positive := {| gnmipb.Element := []; gnmipb.Origin := "openconfig";
                       gnmipb.Elem := []; gnmipb.Target := "router9" |}]}.

(** Three iterations: the slot is busy; the slot is free and the lock is
    held elsewhere; the lock is free and [disconnect()] is called while
    [connect] blocks. *)
Definition sample_interference : list Interference :=
  [ {| slot_free := false; lock_free := false; disconnect_called := false |};
    {| slot_free := true; lock_free := false; disconnect_called := false |};
    {| slot_free := true; lock_free := true; disconnect_called := true |} ].

(** A message, a sync response, the disconnect callback, a sync response. *)
Definition sample_ops : list Op :=
  [ Op_handleUpdate
      (Message_SubscribeResponse
         {| gnmipb.Response := Some (gnmipb.SubscribeResponse_Update 1%positive) |});
    Op_handleUpdate
      (Message_SubscribeResponse
         {| gnmipb.Response := Some (gnmipb.SubscribeResponse_SyncResponse true) |});
    Op_disconnected;
    Op_handleUpdate
      (Message_SubscribeResponse
         {| gnmipb.Response := Some (gnmipb.SubscribeResponse_SyncResponse true) |}) ].

(** ** Further invariants *)

(** On the cache target, [Disconnect] and [Reset] only come as a pair:
    [Disconnect] is followed at once by [Reset], and [Reset] follows at once a
    [Disconnect]. *)
Definition resets_paired (calls : list CacheCall) : Prop :=
  (∀ pre post, calls = pre ++ Cache_Disconnect :: post →
     ∃ post', post = Cache_Reset :: post')
  ∧ (∀ pre post, calls = pre ++ Cache_Reset :: post →
       ∃ pre', pre = pre' ++ [Cache_Disconnect]).

(** The order of the try-calls of the acquisition loop: nothing is tried
    again once it has succeeded, the lock is only tried with the slot
    acquired, and the lock is only held with the slot. *)
Definition loop_order (s : LoopState) : Prop :=
  (∀ pre post, gate_calls s = pre ++ Call_TryAcquire true :: post →
     ∀ r, Call_TryAcquire r ∉ post)
  ∧ (∀ pre post, gate_calls s = pre ++ Call_Try true :: post →
       ∀ r, Call_Try r ∉ post)
  ∧ (∀ pre r post, gate_calls s = pre ++ Call_Try r :: post →
       Call_TryAcquire true ∈ pre)
  ∧ (connectionLockAcquired s = true → connectionSlotAcquired s = true).

(** The set-up of [connect] never gets as far as [client.Reconnect]:
    [NewQuery] or [Validate] returns an error, whatever the target state. *)
Definition setup_always_fails
  (NewQuery : SubscribeRequest → client.Query + error)
  (Validate : client.Query → option error)
  (build : TargetState → client.Query → client.Query) : Prop :=
  ∀ t query, NewQuery (request t) = inl query → is_Some (Validate (build t query)).

(** ** The gRPC server ([gateway/server/server.go]) *)

(** [gateway.GatewayConfig], as far as [StartServer] reads it. *)
Record ServerConfig := {
  ServerTLSCert : string;
  ServerTLSKey : string;
  ServerPort : Z
}.

(** A call made by [StartServer] on the libraries it uses, or a statement
    that starts a goroutine.  [Server_Listen port] is
    [net.Listen("tcp", fmt.Sprintf(":%d", port))]. *)
Inductive ServerCall :=
| Server_NewServerTLSFromFile (cert key : string)
| Server_grpc_NewServer
| Server_subscribe_NewServer
| Server_RegisterGNMIServer
| Server_SetClient
| Server_Listen (port : Z)
| Server_go_Serve
| Server_Stop.

(** The answers of the libraries: whether loading the certificate, creating
    the subscribe server and listening on a port return an error. *)
Record ServerLibraries := {
  NewServerTLSFromFile_fails : string → string → bool;
  subscribe_NewServer_fails : bool;
  Listen_fails : Z → bool
}.

(** How a call of [StartServer] ends: it returns an error value, or it blocks
    for ever on [<-ctx.Done()], the context being [context.Background()],
    which is never done. *)
Inductive ServerEnd :=
| Server_returns (err : option error)
| Server_blocks.

(** [StartServer(config, c) error]: the calls made, in order, and how the
    function ends.  The deferred [srv.Stop()] is registered only after the
    goroutine is started, so it would run only if the function returned from
    there. *)
Definition StartServer (lib : ServerLibraries) (config : ServerConfig)
  : list ServerCall * ServerEnd :=
  let calls := [Server_NewServerTLSFromFile (ServerTLSCert config) (ServerTLSKey config)] in
  if NewServerTLSFromFile_fails lib (ServerTLSCert config) (ServerTLSKey config)
  then (calls, Server_returns (Some (fmt_Errorf "failed to generate credentials: %v")))
  else
    let calls := calls ++ [Server_grpc_NewServer] in
    let calls := calls ++ [Server_subscribe_NewServer] in
    if subscribe_NewServer_fails lib
    then (calls, Server_returns (Some (fmt_Errorf "Could not instantiate gNMI server: %v")))
    else
      let calls := calls ++ [Server_RegisterGNMIServer] in
      let calls := calls ++ [Server_SetClient] in
      let calls := calls ++ [Server_Listen (ServerPort config)] in
      if Listen_fails lib (ServerPort config)
      then (calls, Server_returns (Some (fmt_Errorf "failed to listen: %v")))
      else
        let calls := calls ++ [Server_go_Serve] in
        (calls, Server_blocks).

(** ** More sample data *)

(** The addresses of [target_with_credentials] in the other order, without
    credentials. *)
Definition target_reordered : targetpb.Target :=
  {| targetpb.Addresses := ["10.0.0.2:6030"; "10.0.0.1:6030"];
     targetpb.Credentials_ := None |}.

(** The update of [update_of] with another value and duplicate count. *)
Definition update_with_value (elems : list gnmipb.PathElem) : gnmipb.Update :=
  {| gnmipb.Update_Path := Some (path_of elems); gnmipb.Val := "2";
     gnmipb.Duplicates := 3 |}.

(** A [client.NewQuery] that rejects every request. *)
Definition NewQuery_fails (_ : SubscribeRequest) : client.Query + error :=
  inr (errors_New "no subscription").

(** Two iterations with the lock held by another instance; [disconnect()] is
    called during the second. *)
Definition standby_interference : list Interference :=
  [ {| slot_free := false; lock_free := false; disconnect_called := false |};
    {| slot_free := true; lock_free := false; disconnect_called := true |} ].

Definition sample_ServerConfig : ServerConfig :=
  {| ServerTLSCert := "server.crt"; ServerTLSKey := "server.key";
     ServerPort := 2906 |}.

(** Libraries where only listening fails. *)
Definition libraries_port_in_use : ServerLibraries :=
  {| NewServerTLSFromFile_fails := λ _ _, false;
     subscribe_NewServer_fails := false;
     Listen_fails := λ _, true |}.

(** ** Properties of the rejection filter *)

Lemma rejectUpdate_loop_None (updates : list gnmipb.Update) :
  rejectUpdate_loop updates = None ↔
  ∀ u, u ∈ updates → rejectUpdate_body u = None.
Proof.
  induction updates as [|u0 rest IH]; simpl.
  - split; [intros _ u Hu; inversion Hu | done].
  - destruct (rejectUpdate_body u0) eqn:E.
    + split; [done|]. intros H. specialize (H u0 (list_elem_of_here _ _)).
      congruence.
    + rewrite IH. split.
      * intros H u Hu. apply elem_of_cons in Hu as [->|Hu]; auto.
      * intros H u Hu. apply H. by apply list_elem_of_further.
Qed.

Lemma rejectUpdate_is_Some (n : gnmipb.Notification) :
  is_Some (rejectUpdate n) ↔
  ∃ u, u ∈ gnmipb.GetUpdate n ∧ is_Some (rejectUpdate_body u).
Proof.
  unfold rejectUpdate. induction (gnmipb.GetUpdate n) as [|u0 rest IH]; simpl.
  - split; [intros [? ?]; done | intros (u & Hu & _); inversion Hu].
  - destruct (rejectUpdate_body u0) eqn:E.
    + split; [|eauto]. intros _. exists u0. split; [left|rewrite E; eauto].
    + rewrite IH. split.
      * intros (u & Hu & Hs). exists u. split; [by right|done].
      * intros (u & Hu & Hs). apply elem_of_cons in Hu as [->|Hu].
        -- rewrite E in Hs. by destruct Hs.
        -- eauto.
Qed.

Lemma rejectUpdate_single (n : gnmipb.Notification) (u : gnmipb.Update) :
  gnmipb.GetUpdate n = [u] →
  rejectUpdate n = rejectUpdate_path (gnmipb.GetElem (gnmipb.GetPath u)).
Proof.
  intros H. unfold rejectUpdate. rewrite H. simpl. unfold rejectUpdate_body.
  by destruct (rejectUpdate_path _).
Qed.

Lemma rejectUpdate_path_netconf_state (e0 e1 : gnmipb.PathElem)
  (rest : list gnmipb.PathElem) :
  gnmipb.Name e0 = "netconf-state" →
  rejectUpdate_path (e0 :: e1 :: rest)
  = Some (errors_New "bug for netconf-state path").
Proof.
  intros H. unfold rejectUpdate_path. rewrite H. reflexivity.
Qed.

(** C4: the filter on the four concrete paths.  For a notification whose
    only update has the path [[interfaces, interface{name=interface}]] or
    [[network-instances, network-instance{name=network-instance}]] the
    filter returns an error; for [[interfaces, interface{name=eth0}]] it
    returns nil; for [netconf-state] followed by an element [x] and any
    further elements it returns an error. *)
Theorem rejectUpdate_concrete_cases (n : gnmipb.Notification) (u : gnmipb.Update) :
  gnmipb.GetUpdate n = [u] →
  (gnmipb.GetElem (gnmipb.GetPath u) = path_interface_self →
     rejectUpdate n = Some (errors_New "bug for Arista interface path"))
  ∧ (gnmipb.GetElem (gnmipb.GetPath u) = path_network_instance_self →
     rejectUpdate n = Some (errors_New "bug for Arista isis adjacency path"))
  ∧ (gnmipb.GetElem (gnmipb.GetPath u) = path_interface_eth0 →
     rejectUpdate n = None)
  ∧ (∀ keys x more,
       gnmipb.GetElem (gnmipb.GetPath u) = elem "netconf-state" keys :: x :: more →
       rejectUpdate n = Some (errors_New "bug for netconf-state path")).
Proof.
  intros Hn. rewrite (rejectUpdate_single n u Hn).
  split; [|split; [|split]].
  - intros ->. reflexivity.
  - intros ->. reflexivity.
  - intros ->. reflexivity.
  - intros keys x more ->. by apply rejectUpdate_path_netconf_state.
Qed.

(** C5 (amended): an update whose path starts with an element named
    [netconf-state] and has at least one further element is rejected, and so
    is every notification that holds such an update. *)
Theorem rejectUpdate_netconf_state_two_elements
  (u : gnmipb.Update) (e0 e1 : gnmipb.PathElem) (rest : list gnmipb.PathElem) :
  gnmipb.GetElem (gnmipb.GetPath u) = e0 :: e1 :: rest →
  gnmipb.Name e0 = "netconf-state" →
  rejectUpdate_body u = Some (errors_New "bug for netconf-state path")
  ∧ ∀ n, u ∈ gnmipb.GetUpdate n → is_Some (rejectUpdate n).
Proof.
  intros Hpath Hname.
  assert (Hbody : rejectUpdate_body u
                  = Some (errors_New "bug for netconf-state path")).
  { unfold rejectUpdate_body. rewrite Hpath.
    by apply rejectUpdate_path_netconf_state. }
  split; [exact Hbody|].
  intros n Hin. apply rejectUpdate_is_Some. exists u. split; [done|].
  rewrite Hbody. eauto.
Qed.

(** ** Properties of Equal *)

(** The address loop, entered at index [i] with the addresses not yet visited
    and as many of the other side left: it never goes out of range, and it
    returns false exactly when the two remainders differ. *)
Lemma Equal_loop_same_length (addresses seen others : list string) :
  length addresses = length others →
  Equal_loop (length seen) addresses (seen ++ others)
  = if decide (addresses = others) then Return None else Return (Some false).
Proof.
  revert seen others.
  induction addresses as [|addr rest IH]; intros seen [|o others] Hlen;
    simplify_eq/=.
  - reflexivity.
  - rewrite lookup_app_r by lia. rewrite Nat.sub_diag. simpl.
    destruct (String.eqb o addr) eqn:E; simpl.
    + apply String.eqb_eq in E as ->.
      replace (seen ++ addr :: others) with ((seen ++ [addr]) ++ others)
        by by rewrite <- app_assoc.
      replace (S (length seen)) with (length (seen ++ [addr]))
        by (rewrite length_app; simpl; lia).
      rewrite IH by done.
      destruct (decide (rest = others)) as [->|Hne].
      * by rewrite decide_True.
      * rewrite decide_False; [done|]. intros [=]. done.
    + apply String.eqb_neq in E.
      rewrite decide_False; [done|]. intros [=]. done.
Qed.

(** X1: when both sides carry credentials, [Equal] returns, and it returns
    true exactly when the addresses are the same sequence and the user names and
    passwords are the same. *)
Lemma Equal_with_credentials (t : TargetState) (other : targetpb.Target)
  (mine theirs : targetpb.Credentials) :
  targetpb.Credentials_ (target t) = Some mine →
  targetpb.Credentials_ other = Some theirs →
  Equal t other
  = Return (bool_decide
              (targetpb.Addresses (target t) = targetpb.Addresses other
               ∧ targetpb.Username mine = targetpb.Username theirs
               ∧ targetpb.Password mine = targetpb.Password theirs)).
Proof.
  intros Hmine Htheirs. unfold Equal.
  destruct (length (targetpb.Addresses (target t))
            =? length (targetpb.Addresses other))%nat eqn:Hlen; simpl.
  - apply Nat.eqb_eq in Hlen.
    pose proof (Equal_loop_same_length (targetpb.Addresses (target t)) []
                  (targetpb.Addresses other) Hlen) as Hloop.
    simpl in Hloop. rewrite Hloop.
    destruct (decide (targetpb.Addresses (target t) = targetpb.Addresses other))
      as [Heq|Hne].
    + rewrite Hmine, Htheirs.
      destruct (String.eqb (targetpb.Username mine) (targetpb.Username theirs))
        eqn:Hu; simpl.
      * destruct (String.eqb (targetpb.Password mine) (targetpb.Password theirs))
          eqn:Hp; simpl.
        -- apply String.eqb_eq in Hu, Hp. by rewrite bool_decide_eq_true_2.
        -- apply String.eqb_neq in Hp. rewrite bool_decide_eq_false_2; [done|].
           intros (_ & _ & ?). done.
      * apply String.eqb_neq in Hu. rewrite bool_decide_eq_false_2; [done|].
        intros (_ & ? & _). done.
    + rewrite bool_decide_eq_false_2; [done|]. intros (? & _). done.
  - apply Nat.eqb_neq in Hlen. rewrite bool_decide_eq_false_2; [done|].
    intros (Heq & _). by rewrite Heq in Hlen.
Qed.

(** C3 (where it fails): with the same addresses on both sides and nil
    credentials on either side, [Equal] does not return false: reading
    [Credentials.Username] through the nil pointer panics. *)
Theorem Equal_nil_Credentials_panics (t : TargetState) (other : targetpb.Target) :
  targetpb.Addresses (target t) = targetpb.Addresses other →
  targetpb.Credentials_ (target t) = None ∨ targetpb.Credentials_ other = None →
  Equal t other = Panic.
Proof.
  intros Haddr Hnil. unfold Equal.
  rewrite <- Haddr, Nat.eqb_refl. simpl.
  pose proof (Equal_loop_same_length (targetpb.Addresses (target t)) []
                (targetpb.Addresses (target t)) eq_refl) as Hloop.
  simpl in Hloop. rewrite Hloop, decide_True by done.
  destruct Hnil as [-> | ->]; [done|].
  by destruct (targetpb.Credentials_ (target t)).
Qed.

(** ** Properties of handleUpdate *)

Lemma handleUpdate_connect_calls (w : World) :
  cache_calls (handleUpdate_connect w)
  = cache_calls w ++ (if connected (ts w) then [] else [Cache_Connect]).
Proof.
  unfold handleUpdate_connect. destruct (connected (ts w)); simpl.
  - by rewrite app_nil_r.
  - reflexivity.
Qed.

Lemma handleUpdate_connect_connected (w : World) :
  connected (ts (handleUpdate_connect w)) = true.
Proof.
  unfold handleUpdate_connect. by destruct (connected (ts w)) eqn:E.
Qed.

Lemma handleUpdate_connect_frame (w : World) :
  notifications (handleUpdate_connect w) = notifications w
  ∧ paths (handleUpdate_connect w) = paths w
  ∧ name (ts (handleUpdate_connect w)) = name (ts w)
  ∧ stopped (ts (handleUpdate_connect w)) = stopped (ts w)
  ∧ client_ (ts (handleUpdate_connect w)) = client_ (ts w).
Proof.
  unfold handleUpdate_connect. by destruct (connected (ts w)).
Qed.

(** What the data-update case returns once the world has been changed to [w]
    and the call [c] on the cache target is due. *)
Lemma handleUpdate_Update_nil_prefix (w : World) (l : loc) (n : gnmipb.Notification) :
  notifications w !! l = Some n →
  gnmipb.Prefix n = None →
  let p := fresh (dom (paths w)) in
  let n' := set_Prefix (Some p) n in
  let path' := set_Target (name (ts w)) gnmipb.Path_zero in
  let w1 := {| ts := ts w;
               notifications := <[l := n']> (notifications w);
               paths := <[p := path']> (paths w);
               cache_calls := cache_calls w |} in
  handleUpdate_Update w l
  = match rejectUpdate n with
    | Some _ => (w1, Return None)
    | None =>
        let w2 := cache_call (Cache_GnmiUpdate l n' path') w1 in
        (w2, match GnmiUpdate_error (cache_calls w2) with
             | Some _ => Return (Some (fmt_Errorf
                                   "targetCache cache update error: %t: %+v"))
             | None => Return None
             end)
    end.
Proof.
  intros Hl Hnil. simpl. unfold handleUpdate_Update.
  rewrite Hl. unfold gnmipb.GetPrefix. rewrite Hnil.
  unfold assign_fresh_Prefix. simpl.
  rewrite lookup_insert_eq. simpl. rewrite lookup_insert_eq. simpl.
  unfold assign_Target. simpl. rewrite insert_insert_eq.
  change (rejectUpdate (set_Prefix (Some (fresh (dom (paths w)))) n))
    with (rejectUpdate n).
  destruct (rejectUpdate n); [reflexivity|].
  rewrite lookup_insert_eq. by destruct (GnmiUpdate_error _).
Qed.

Lemma handleUpdate_Update_with_prefix (w : World) (l p : loc)
  (n : gnmipb.Notification) (path : gnmipb.Path) :
  notifications w !! l = Some n →
  gnmipb.Prefix n = Some p →
  paths w !! p = Some path →
  let path' := if String.eqb (gnmipb.Target path) EmptyString
               then set_Target (name (ts w)) path else path in
  let w1 := {| ts := ts w;
               notifications := notifications w;
               paths := <[p := path']> (paths w);
               cache_calls := cache_calls w |} in
  handleUpdate_Update w l
  = match rejectUpdate n with
    | Some _ => (w1, Return None)
    | None =>
        let w2 := cache_call (Cache_GnmiUpdate l n path') w1 in
        (w2, match GnmiUpdate_error (cache_calls w2) with
             | Some _ => Return (Some (fmt_Errorf
                                   "targetCache cache update error: %t: %+v"))
             | None => Return None
             end)
    end.
Proof.
  intros Hl Hp Hpath. simpl. unfold handleUpdate_Update.
  rewrite Hl. unfold gnmipb.GetPrefix. rewrite Hp, Hl, Hp, Hpath.
  destruct (String.eqb (gnmipb.Target path) EmptyString) eqn:E.
  - unfold assign_Target. simpl.
    destruct (rejectUpdate n); [reflexivity|].
    rewrite lookup_insert_eq. by destruct (GnmiUpdate_error _).
  - rewrite (insert_id (paths w) p path Hpath).
    destruct w as [t ns ps cs]. simpl in *.
    destruct (rejectUpdate n); [reflexivity|].
    rewrite Hpath. by destruct (GnmiUpdate_error _).
Qed.

Lemma valid_notification_connect (w : World) (l : loc) (n : gnmipb.Notification) :
  valid_notification w l n → valid_notification (handleUpdate_connect w) l n.
Proof.
  unfold valid_notification.
  destruct (handleUpdate_connect_frame w) as (-> & -> & _). done.
Qed.

(** The data-update case never writes the target state, and it makes at most
    one call on the cache target, a [GnmiUpdate] with the pointer it was
    given. *)
Lemma handleUpdate_Update_frame (w : World) (l : loc) :
  ts (handleUpdate_Update w l).1 = ts w
  ∧ (cache_calls (handleUpdate_Update w l).1 = cache_calls w
     ∨ ∃ n path, cache_calls (handleUpdate_Update w l).1
                 = cache_calls w ++ [Cache_GnmiUpdate l n path]).
Proof.
  unfold handleUpdate_Update, gnmipb.GetPrefix, assign_fresh_Prefix, assign_Target.
  repeat (case_match; simpl in *; simplify_eq); eauto.
Qed.

(** C6: when the filter matches some update of the notification,
    [handleUpdate] returns nil and makes no [GnmiUpdate] call at all: the only
    call it may add is the [Connect] of its first statement. *)
Theorem handleUpdate_rejected_dropped
  (w : World) (l : loc) (n : gnmipb.Notification) (u : gnmipb.Update) :
  valid_notification w l n →
  u ∈ gnmipb.GetUpdate n →
  is_Some (rejectUpdate_body u) →
  (handleUpdate w (data_update l)).2 = Return None
  ∧ cache_calls (handleUpdate w (data_update l)).1
    = cache_calls w ++ (if connected (ts w) then [] else [Cache_Connect])
  ∧ ∀ ptr n' path',
      Cache_GnmiUpdate ptr n' path' ∈ cache_calls (handleUpdate w (data_update l)).1 →
      Cache_GnmiUpdate ptr n' path' ∈ cache_calls w.
Proof.
  intros Hvalid Hin Hrej.
  assert (Hsome : is_Some (rejectUpdate n)).
  { apply rejectUpdate_is_Some. eauto. }
  destruct Hsome as [e He].
  apply valid_notification_connect in Hvalid as [Hl Hp].
  assert (Hres : (handleUpdate w (data_update l)).2 = Return None
                 ∧ cache_calls (handleUpdate w (data_update l)).1
                   = cache_calls (handleUpdate_connect w)).
  { change (handleUpdate w (data_update l))
      with (handleUpdate_Update (handleUpdate_connect w) l).
    destruct (gnmipb.Prefix n) as [p|] eqn:Hprefix.
    - destruct (Hp p eq_refl) as [path Hpath].
      rewrite (handleUpdate_Update_with_prefix _ l p n path Hl Hprefix Hpath).
      rewrite He. done.
    - rewrite (handleUpdate_Update_nil_prefix _ l n Hl Hprefix).
      rewrite He. done. }
  destruct Hres as [Hret Hcalls].
  rewrite Hcalls, handleUpdate_connect_calls.
  split; [done|]. split; [done|].
  intros ptr n' path' Hc. apply elem_of_app in Hc as [Hc|Hc]; [done|].
  destruct (connected (ts w)).
  - inversion Hc.
  - apply list_elem_of_singleton in Hc. discriminate Hc.
Qed.

(** C7 (amended): a data update that the filter does not reject is handed to
    [GnmiUpdate], through the pointer received; when its prefix is nil or has
    an empty target, the prefix seen by the cache target has the name of the
    target state as its target; when the prefix has a non-empty target, the
    notification and the prefix are seen as they were received. *)
Theorem handleUpdate_forwards_with_designator
  (w : World) (l : loc) (n : gnmipb.Notification) :
  valid_notification w l n →
  rejectUpdate n = None →
  ∃ n' path',
    cache_calls (handleUpdate w (data_update l)).1
    = cache_calls w ++ (if connected (ts w) then [] else [Cache_Connect])
      ++ [Cache_GnmiUpdate l n' path']
    ∧ (gnmipb.Prefix n = None → gnmipb.Target path' = name (ts w))
    ∧ (∀ p path, gnmipb.Prefix n = Some p → paths w !! p = Some path →
         gnmipb.Target path = EmptyString → gnmipb.Target path' = name (ts w))
    ∧ (∀ p path, gnmipb.Prefix n = Some p → paths w !! p = Some path →
         gnmipb.Target path ≠ EmptyString → n' = n ∧ path' = path).
Proof.
  intros Hvalid Hrej.
  apply valid_notification_connect in Hvalid as [Hl Hp].
  destruct (handleUpdate_connect_frame w) as (_ & Hpaths & Hname & _).
  change (handleUpdate w (data_update l))
    with (handleUpdate_Update (handleUpdate_connect w) l).
  destruct (gnmipb.Prefix n) as [p|] eqn:Hprefix.
  - destruct (Hp p eq_refl) as [path Hpath].
    rewrite (handleUpdate_Update_with_prefix _ l p n path Hl Hprefix Hpath).
    rewrite Hrej. simpl. rewrite handleUpdate_connect_calls, <- app_assoc.
    eexists _, _. split; [reflexivity|].
    rewrite Hpaths in Hpath. rewrite Hname.
    split; [done|]. split.
    + intros p0 path0 [= <-] Hpath0 Hempty. simplify_eq.
      rewrite Hempty. simpl. done.
    + intros p0 path0 [= <-] Hpath0 Hne. simplify_eq.
      apply String.eqb_neq in Hne. rewrite Hne. done.
  - rewrite (handleUpdate_Update_nil_prefix _ l n Hl Hprefix).
    rewrite Hrej. simpl. rewrite handleUpdate_connect_calls, <- app_assoc.
    eexists _, _. split; [reflexivity|].
    rewrite Hname. split; [done|]. split; intros; discriminate.
Qed.

(** C9 (amended): [handleUpdate] leaves [connected] true whatever message it
    is given, a data update or not; and no other operation turns [connected]
    from false to true. *)
Theorem handleUpdate_sets_connected :
  (∀ (w : World) (msg : Message), connected (ts (handleUpdate w msg).1) = true)
  ∧ (∀ (w : World) (op : Op),
       (∀ msg, op ≠ Op_handleUpdate msg) →
       connected (ts w) = false →
       connected (ts (step w op).1) = false).
Proof.
  split.
  - intros w msg. unfold handleUpdate.
    pose proof (handleUpdate_connect_connected w) as Hc.
    destruct msg as [[[[l| |]|]]|]; simpl; try done.
    destruct (handleUpdate_Update_frame (handleUpdate_connect w) l) as [-> _].
    done.
  - intros w op Hop Hc. destruct op; simpl.
    + unfold connect. simpl.
      repeat (case_match; simpl); done.
    + unfold disconnect, client_Close. simpl. by destruct (client_ (ts w)).
    + done.
    + unfold reconnect, client_Close. by destruct (client_ (ts w)).
    + by destruct (Hop msg).
Qed.

(** C10: prefix defaulting is done by writing through the pointers received.
    After [handleUpdate] on a data update, the notification at [l] differs
    from the one received at most in its [Prefix] pointer, which is set to a
    newly allocated [Path] when it was nil and is kept otherwise; the [Path]
    it points to differs from the one received at most in [Target], which is
    the name of the target state when it was empty; no other notification and
    no other [Path] of the store is written; and the call to [GnmiUpdate], made
    when the filter does not reject, passes the pointer [l] and sees the
    notification and the prefix as they are in the store after the writes. *)
Theorem handleUpdate_defaults_prefix_in_place
  (w : World) (l : loc) (n : gnmipb.Notification) :
  valid_notification w l n →
  ∃ n' p path',
    notifications (handleUpdate w (data_update l)).1 !! l = Some n'
    ∧ gnmipb.Prefix n' = Some p
    ∧ paths (handleUpdate w (data_update l)).1 !! p = Some path'
    ∧ (gnmipb.Timestamp n' = gnmipb.Timestamp n
       ∧ gnmipb.Alias n' = gnmipb.Alias n
       ∧ gnmipb.Notification_Update n' = gnmipb.Notification_Update n
       ∧ gnmipb.Delete n' = gnmipb.Delete n
       ∧ gnmipb.Atomic n' = gnmipb.Atomic n)
    ∧ (gnmipb.Prefix n = None →
         paths w !! p = None
         ∧ path' = set_Target (name (ts w)) gnmipb.Path_zero)
    ∧ (∀ p0 path, gnmipb.Prefix n = Some p0 → paths w !! p0 = Some path →
         p = p0
         ∧ gnmipb.Element path' = gnmipb.Element path
         ∧ gnmipb.Origin path' = gnmipb.Origin path
         ∧ gnmipb.Elem path' = gnmipb.Elem path
         ∧ gnmipb.Target path'
           = if String.eqb (gnmipb.Target path) EmptyString
             then name (ts w) else gnmipb.Target path)
    ∧ (∀ l', l' ≠ l →
         notifications (handleUpdate w (data_update l)).1 !! l'
         = notifications w !! l')
    ∧ (∀ p', p' ≠ p →
         paths (handleUpdate w (data_update l)).1 !! p' = paths w !! p')
    ∧ cache_calls (handleUpdate w (data_update l)).1
      = cache_calls w ++ (if connected (ts w) then [] else [Cache_Connect])
        ++ match rejectUpdate n with
           | Some _ => []
           | None => [Cache_GnmiUpdate l n' path']
           end.
Proof.
  intros Hvalid.
  pose proof Hvalid as [Hl0 _].
  apply valid_notification_connect in Hvalid as [Hl Hp].
  destruct (handleUpdate_connect_frame w) as (Hnots & Hpaths & Hname & _).
  change (handleUpdate w (data_update l))
    with (handleUpdate_Update (handleUpdate_connect w) l).
  destruct (gnmipb.Prefix n) as [p|] eqn:Hprefix.
  - destruct (Hp p eq_refl) as [path Hpath].
    rewrite (handleUpdate_Update_with_prefix _ l p n path Hl Hprefix Hpath).
    rewrite Hname, Hnots, Hpaths. rewrite Hpaths in Hpath.
    exists n, p,
      (if String.eqb (gnmipb.Target path) EmptyString
       then set_Target (name (ts w)) path else path).
    assert (Hcalls := handleUpdate_connect_calls w).
    destruct (rejectUpdate n); simpl;
      rewrite ?Hcalls, ?lookup_insert_eq, ?app_nil_r, <- ?app_assoc;
      (split; [done|]); (split; [done|]); (split; [done|]);
      (split; [done|]); (split; [done|]);
      (split; [|split; [done|split; [|done]]]).
    all: try (intros p' Hne; by rewrite lookup_insert_ne).
    all: intros p0 path0 [= <-] Hpath0; simplify_eq;
      by destruct (String.eqb (gnmipb.Target _) EmptyString).
  - rewrite (handleUpdate_Update_nil_prefix _ l n Hl Hprefix).
    rewrite Hname, Hnots, Hpaths.
    exists (set_Prefix (Some (fresh (dom (paths w)))) n),
      (fresh (dom (paths w))),
      (set_Target (name (ts w)) gnmipb.Path_zero).
    assert (Hfresh : paths w !! fresh (dom (paths w)) = None).
    { apply not_elem_of_dom, is_fresh. }
    assert (Hcalls := handleUpdate_connect_calls w).
    destruct (rejectUpdate n); simpl;
      rewrite ?Hcalls, ?lookup_insert_eq, ?app_nil_r, <- ?app_assoc;
      (split; [done|]); (split; [done|]); (split; [done|]);
      (split; [done|]); (split; [done|]);
      (split; [intros; discriminate|]);
      (split; [intros l' Hne; by rewrite lookup_insert_ne|]);
      (split; [intros p' Hne; by rewrite lookup_insert_ne|done]).
Qed.

(** ** Properties of the order of the calls on the cache target *)

Lemma cache_state_snoc (calls : list CacheCall) (c : CacheCall) :
  cache_state (calls ++ [c]) = cache_call_state (cache_state calls) c.
Proof. unfold cache_state. by rewrite fold_left_app. Qed.

Lemma calls_in_order_nil : calls_in_order [].
Proof. intros [|? ?] ? ? H; discriminate H. Qed.

Lemma calls_in_order_snoc (calls : list CacheCall) (c : CacheCall) :
  calls_in_order calls →
  (c = Cache_Connect → cache_state calls = false) →
  (carries_data c = true → cache_state calls = true) →
  calls_in_order (calls ++ [c]).
Proof.
  intros Hord Hconnect Hdata pre c' post.
  destruct post as [|x post _] using rev_ind.
  - intros Heq. apply app_inj_tail in Heq as [-> ->]. done.
  - rewrite app_comm_cons, app_assoc. intros Heq.
    apply app_inj_tail in Heq as [-> _]. by apply (Hord pre c' post).
Qed.

(** A connected cache target has been told [Connect], and not [Disconnect]
    since. *)
Lemma cache_state_true (calls : list CacheCall) :
  cache_state calls = true →
  ∃ pre1 pre2, calls = pre1 ++ Cache_Connect :: pre2 ∧ Cache_Disconnect ∉ pre2.
Proof.
  induction calls as [|c calls IH] using rev_ind; [done|].
  rewrite cache_state_snoc. intros H.
  destruct c as [| | | |ptr n path]; simpl in H; try done.
  - exists calls, []. split; [done|]. apply not_elem_of_nil.
  - destruct (IH H) as (pre1 & pre2 & -> & Hno).
    exists pre1, (pre2 ++ [Cache_Reset]). rewrite <- app_assoc. split; [done|].
    rewrite elem_of_app, list_elem_of_singleton. intros [?|?]; done.
  - destruct (IH H) as (pre1 & pre2 & -> & Hno).
    exists pre1, (pre2 ++ [Cache_Sync]). rewrite <- app_assoc. split; [done|].
    rewrite elem_of_app, list_elem_of_singleton. intros [?|?]; done.
  - destruct (IH H) as (pre1 & pre2 & -> & Hno).
    exists pre1, (pre2 ++ [Cache_GnmiUpdate ptr n path]).
    rewrite <- app_assoc. split; [done|].
    rewrite elem_of_app, list_elem_of_singleton. intros [?|?]; done.
Qed.

Lemma cache_state_after_Connect (pre mid : list CacheCall) :
  cache_state (pre ++ Cache_Connect :: mid) = false →
  Cache_Disconnect ∈ mid.
Proof.
  induction mid as [|c mid IH] using rev_ind.
  - by rewrite cache_state_snoc.
  - rewrite app_comm_cons, app_assoc, cache_state_snoc. intros H.
    apply elem_of_app.
    destruct c; simpl in H; try done; try (left; by apply IH).
    right. left.
Qed.

Lemma cache_agrees_connect (w : World) :
  cache_agrees w →
  cache_agrees (handleUpdate_connect w)
  ∧ connected (ts (handleUpdate_connect w)) = true.
Proof.
  intros [Hc Hord]. split; [|apply handleUpdate_connect_connected].
  unfold handleUpdate_connect. destruct (connected (ts w)) eqn:E; simpl.
  - split; [by rewrite E|done].
  - split; simpl.
    + by rewrite cache_state_snoc.
    + apply calls_in_order_snoc; done.
Qed.

Lemma cache_agrees_data (w w' : World) (c : CacheCall) :
  cache_agrees w → connected (ts w) = true → carries_data c = true →
  ts w' = ts w → cache_calls w' = cache_calls w ++ [c] →
  cache_agrees w'.
Proof.
  intros [Hc Hord] Hconn Hdata Hts Hcalls. unfold cache_agrees.
  rewrite Hts, Hcalls, cache_state_snoc. split.
  - rewrite <- Hc. by destruct c.
  - apply calls_in_order_snoc; [done| |congruence].
    intros ->. done.
Qed.

Lemma cache_agrees_handleUpdate (w : World) (msg : Message) :
  cache_agrees w → cache_agrees (handleUpdate w msg).1.
Proof.
  intros Hw. apply cache_agrees_connect in Hw as [Hw Hconn].
  unfold handleUpdate. destruct msg as [[[[l| |]|]]|]; simpl; try done.
  - destruct (handleUpdate_Update_frame (handleUpdate_connect w) l)
      as [Hts [Hcalls|(n & path & Hcalls)]].
    + destruct Hw as [Hc Hord]. unfold cache_agrees. by rewrite Hts, Hcalls.
    + by apply (cache_agrees_data (handleUpdate_connect w) _
                  (Cache_GnmiUpdate l n path)).
  - by apply (cache_agrees_data (handleUpdate_connect w) _ Cache_Sync).
Qed.

Lemma client_Close_frame (t : TargetState) :
  connected (client_Close t).1 = connected t
  ∧ stopped (client_Close t).1 = stopped t.
Proof. unfold client_Close. by destruct (client_ t). Qed.

Lemma connect_frame (t : TargetState) :
  connected (connect t) = connected t ∧ stopped (connect t) = stopped t.
Proof. unfold connect. repeat (case_match; simpl); done. Qed.

Lemma cache_agrees_step (w : World) (op : Op) :
  cache_agrees w → cache_agrees (step w op).1.
Proof.
  intros Hw. destruct op; simpl.
  - destruct Hw as [Hc Hord]. unfold cache_agrees. simpl.
    by rewrite (proj1 (connect_frame (ts w))).
  - destruct Hw as [Hc Hord]. unfold disconnect.
    destruct (client_Close (set_stopped true (ts w))) as [t o] eqn:E.
    unfold cache_agrees. simpl.
    pose proof (proj1 (client_Close_frame (set_stopped true (ts w)))) as H.
    rewrite E in H. simpl in H. by rewrite H.
  - destruct Hw as [Hc Hord]. unfold cache_agrees, disconnected. simpl.
    rewrite !cache_state_snoc. split; [done|].
    apply calls_in_order_snoc; [|done|done].
    apply calls_in_order_snoc; done.
  - destruct Hw as [Hc Hord]. unfold reconnect.
    destruct (client_Close (ts w)) as [t o] eqn:E.
    unfold cache_agrees. simpl.
    pose proof (proj1 (client_Close_frame (ts w))) as H.
    rewrite E in H. simpl in H. by rewrite H.
  - pose proof (cache_agrees_handleUpdate w msg Hw) as H.
    by destruct (handleUpdate w msg).
Qed.

Lemma cache_agrees_run (ops : list Op) (w : World) :
  cache_agrees w → cache_agrees (run ops w).1.
Proof.
  revert w. induction ops as [|op ops IH]; intros w Hw; simpl; [done|].
  pose proof (cache_agrees_step w op Hw) as Hstep.
  destruct (step w op) as [w' [[]|]]; simpl in *; [by apply IH | done].
Qed.

(** C2: whatever operations run on a target state that starts disconnected
    with no call made yet, every [GnmiUpdate] and every [Sync] that the cache
    target receives comes after a [Connect], with no [Disconnect] in between;
    and between two [Connect] calls there is a [Disconnect]. *)
Theorem cache_connect_before_update (w0 : World) (ops : list Op) :
  connected (ts w0) = false →
  cache_calls w0 = [] →
  (∀ pre c post,
     cache_calls (run ops w0).1 = pre ++ c :: post →
     c = Cache_Sync ∨ (∃ ptr n path, c = Cache_GnmiUpdate ptr n path) →
     ∃ pre1 pre2, pre = pre1 ++ Cache_Connect :: pre2 ∧ Cache_Disconnect ∉ pre2)
  ∧ (∀ pre mid post,
       cache_calls (run ops w0).1
       = pre ++ Cache_Connect :: mid ++ Cache_Connect :: post →
       Cache_Disconnect ∈ mid).
Proof.
  intros Hconn Hcalls.
  assert (Hinv : cache_agrees (run ops w0).1).
  { apply cache_agrees_run. unfold cache_agrees. rewrite Hconn, Hcalls.
    split; [done | apply calls_in_order_nil]. }
  destruct Hinv as [_ Hord]. split.
  - intros pre c post Heq Hc. apply cache_state_true.
    apply (Hord pre c post Heq).
    destruct Hc as [->|(ptr & n & path & ->)]; done.
  - intros pre mid post Heq.
    rewrite app_comm_cons, app_assoc in Heq.
    destruct (Hord _ _ _ Heq) as [Hfalse _].
    apply (cache_state_after_Connect pre mid), Hfalse. reflexivity.
Qed.

(** ** Properties of disconnect and of the flag stopped *)

Lemma handleUpdate_frame (w : World) (msg : Message) :
  stopped (ts (handleUpdate w msg).1) = stopped (ts w)
  ∧ client_ (ts (handleUpdate w msg).1) = client_ (ts w).
Proof.
  unfold handleUpdate.
  destruct (handleUpdate_connect_frame w) as (_ & _ & _ & Hst & Hcl).
  destruct msg as [[[[l| |]|]]|]; simpl; try done.
  destruct (handleUpdate_Update_frame (handleUpdate_connect w) l) as [-> _].
  done.
Qed.

Lemma stopped_step (w : World) (op : Op) :
  stopped (ts w) = true → stopped (ts (step w op).1) = true.
Proof.
  intros Hs. destruct op; simpl.
  - by rewrite (proj2 (connect_frame (ts w))).
  - unfold disconnect.
    pose proof (proj2 (client_Close_frame (set_stopped true (ts w)))) as H.
    by destruct (client_Close (set_stopped true (ts w))).
  - done.
  - unfold reconnect.
    pose proof (proj2 (client_Close_frame (ts w))) as H.
    destruct (client_Close (ts w)); simpl in *. congruence.
  - pose proof (proj1 (handleUpdate_frame w msg)) as H.
    destruct (handleUpdate w msg); simpl in *. congruence.
Qed.

Lemma client_Close_returns (t : TargetState) :
  is_Some (client_ t) →
  ∃ t' e, client_Close t = (t', Return e)
          ∧ stopped t' = stopped t ∧ is_Some (client_ t').
Proof.
  intros [c Hc]. unfold client_Close. rewrite Hc.
  eexists _, _. split; [reflexivity|]. simpl. eauto.
Qed.

Lemma client_Close_Return (t t' : TargetState) (e : option error) :
  client_Close t = (t', Return e) → is_Some (client_ t').
Proof.
  unfold client_Close. destruct (client_ t); intros [= <- _]; simpl; eauto.
Qed.

Lemma stopped_has_client_step (w w' : World) (op : Op) :
  step w op = (w', Return tt) →
  stopped_has_client (ts w) → stopped_has_client (ts w').
Proof.
  unfold stopped_has_client. destruct op; simpl.
  - intros [= <-] Hinv. simpl.
    rewrite (proj2 (connect_frame (ts w))). intros Hs.
    specialize (Hinv Hs). unfold connect.
    repeat (case_match; simpl); eauto.
  - unfold disconnect.
    destruct (client_Close (set_stopped true (ts w))) as [t [e|]] eqn:E;
      simpl; intros [= <-] _ _; simpl. by eapply client_Close_Return.
  - intros [= <-] Hinv. done.
  - unfold reconnect.
    destruct (client_Close (ts w)) as [t [e|]] eqn:E;
      simpl; intros [= <-] _ _; simpl. by eapply client_Close_Return.
  - destruct (handleUpdate_frame w msg) as [Hst Hcl].
    destruct (handleUpdate w msg) as [w1 [e|]]; simpl in *; intros [= <-].
    rewrite Hst, Hcl. done.
Qed.

Lemma stopped_has_client_run (ops : list Op) (w w' : World) :
  run ops w = (w', Return tt) →
  stopped_has_client (ts w) → stopped_has_client (ts w').
Proof.
  revert w. induction ops as [|op ops IH]; intros w; simpl.
  - by intros [= <-].
  - destruct (step w op) as [w1 [[]|]] eqn:E; [|discriminate].
    intros Hrun Hinv. apply (IH w1 Hrun).
    by apply (stopped_has_client_step w w1 op).
Qed.

(** C8: on a target state that started with [stopped] false and has reached
    [stopped] true through operations that returned, [disconnect] returns (it
    does not panic) and leaves [stopped] true; and no operation takes
    [stopped] from true to false. *)
Theorem disconnect_stopped_idempotent :
  (∀ (w0 w : World) (ops : list Op),
     stopped (ts w0) = false →
     run ops w0 = (w, Return tt) →
     stopped (ts w) = true →
     ∃ t' e, disconnect (ts w) = (t', Return e) ∧ stopped t' = true)
  ∧ (∀ (w : World) (op : Op),
       stopped (ts w) = true → stopped (ts (step w op).1) = true).
Proof.
  split; [|apply stopped_step].
  intros w0 w ops H0 Hrun Hs.
  assert (Hinv : stopped_has_client (ts w)).
  { apply (stopped_has_client_run ops w0 w Hrun).
    unfold stopped_has_client. rewrite H0. discriminate. }
  destruct (client_Close_returns (set_stopped true (ts w))) as (t' & e & Hc & Hst & _).
  { apply (Hinv Hs). }
  exists t', e. split; [exact Hc|]. by rewrite Hst.
Qed.

(** ** Properties of connectWithLock *)

Lemma snoc_eq_split {A} (l pre post : list A) (c x : A) :
  l ++ [c] = pre ++ x :: post →
  (post = [] ∧ pre = l ∧ x = c)
  ∨ ∃ post', post = post' ++ [c] ∧ l = pre ++ x :: post'.
Proof.
  destruct post as [|y post _] using rev_ind.
  - intros Heq. apply app_inj_tail in Heq as [-> ->]. by left.
  - rewrite app_comm_cons, app_assoc. intros Heq.
    apply app_inj_tail in Heq as [-> ->]. right. by exists post.
Qed.

Lemma connects_guarded_snoc (calls : list GateCall) (c : GateCall) :
  connects_guarded calls →
  (c = Call_connect → Call_TryAcquire true ∈ calls ∧ Call_Try true ∈ calls) →
  connects_guarded (calls ++ [c]).
Proof.
  intros Hg Hc pre post Heq.
  apply snoc_eq_split in Heq as [(_ & -> & Hx) | (post' & _ & ->)].
  - by apply Hc.
  - by apply (Hg pre post').
Qed.

Lemma loop_invariant_TryAcquire (s : LoopState) (r : bool) :
  loop_invariant s → connectionSlotAcquired s = false →
  loop_invariant
    {| loop_t := loop_t s; connectionSlotAcquired := r;
       connectionLockAcquired := connectionLockAcquired s;
       gate_calls := gate_calls s ++ [Call_TryAcquire r] |}.
Proof.
  intros (Hslot & Hlock & Hrel & Hunl & Hg) Hfalse.
  unfold loop_invariant. simpl.
  rewrite !elem_of_app, !list_elem_of_singleton.
  split; [|split; [|split; [|split]]].
  - rewrite <- Hslot, Hfalse. split; [intros ->; by right|].
    intros [?|[= ->]]; done.
  - rewrite <- Hlock. split; [by left|]. intros [?|?]; done.
  - intros [?|?]; done.
  - intros [?|?]; done.
  - apply connects_guarded_snoc; [done|]. discriminate.
Qed.

Lemma loop_invariant_Try (s : LoopState) (r : bool) :
  loop_invariant s → connectionLockAcquired s = false →
  loop_invariant
    {| loop_t := loop_t s;
       connectionSlotAcquired := connectionSlotAcquired s;
       connectionLockAcquired := r;
       gate_calls := gate_calls s ++ [Call_Try r] |}.
Proof.
  intros (Hslot & Hlock & Hrel & Hunl & Hg) Hfalse.
  unfold loop_invariant. simpl.
  rewrite !elem_of_app, !list_elem_of_singleton.
  split; [|split; [|split; [|split]]].
  - rewrite <- Hslot. split; [by left|]. intros [?|?]; done.
  - rewrite <- Hlock, Hfalse. split; [intros ->; by right|].
    intros [?|[= ->]]; done.
  - intros [?|?]; done.
  - intros [?|?]; done.
  - apply connects_guarded_snoc; [done|]. discriminate.
Qed.

Lemma loop_invariant_connect (s : LoopState) (t : TargetState) :
  loop_invariant s →
  connectionSlotAcquired s = true → connectionLockAcquired s = true →
  loop_invariant
    {| loop_t := t;
       connectionSlotAcquired := connectionSlotAcquired s;
       connectionLockAcquired := connectionLockAcquired s;
       gate_calls := gate_calls s ++ [Call_connect] |}.
Proof.
  intros (Hslot & Hlock & Hrel & Hunl & Hg) Hs Hl.
  unfold loop_invariant. simpl.
  rewrite !elem_of_app, !list_elem_of_singleton.
  split; [|split; [|split; [|split]]].
  - rewrite <- Hslot. split; [by left|]. intros [?|?]; done.
  - rewrite <- Hlock. split; [by left|]. intros [?|?]; done.
  - intros [?|?]; done.
  - intros [?|?]; done.
  - apply connects_guarded_snoc; [done|]. intros _.
    split; [by apply Hslot | by apply Hlock].
Qed.

Lemma loop_invariant_body (e : Interference) (s : LoopState) :
  loop_invariant s → loop_invariant (connectWithLock_body e s).
Proof.
  destruct s as [t slot lock calls]. intros Hinv.
  unfold connectWithLock_body. simpl.
  destruct slot; simpl.
  - destruct lock; simpl.
    + exact (loop_invariant_connect _ (connect t) Hinv eq_refl eq_refl).
    + pose proof (loop_invariant_Try _ (lock_free e) Hinv eq_refl) as Hinv'.
      simpl in Hinv'.
      destruct (lock_free e); [|exact Hinv'].
      exact (loop_invariant_connect _ (connect t) Hinv' eq_refl eq_refl).
  - pose proof (loop_invariant_TryAcquire _ (slot_free e) Hinv eq_refl) as Hinv'.
    simpl in Hinv'.
    destruct (slot_free e); simpl; [|exact Hinv'].
    destruct lock; simpl.
    + exact (loop_invariant_connect _ (connect t) Hinv' eq_refl eq_refl).
    + pose proof (loop_invariant_Try _ (lock_free e) Hinv' eq_refl) as Hinv''.
      simpl in Hinv''.
      destruct (lock_free e); [|exact Hinv''].
      exact (loop_invariant_connect _ (connect t) Hinv'' eq_refl eq_refl).
Qed.

Lemma connectWithLock_body_stopped (e : Interference) (s : LoopState) :
  stopped (loop_t (connectWithLock_body e s)) = stopped (loop_t s).
Proof.
  unfold connectWithLock_body.
  repeat (case_match; simpl); try done; apply connect_frame.
Qed.

(** When the loop is left, [stopped] is true and the invariant holds. *)
Lemma connectWithLock_loop_exit (env : list Interference) (s r : LoopState) :
  loop_invariant s →
  connectWithLock_loop env s = Some (Return r) →
  loop_invariant r ∧ stopped (loop_t r) = true.
Proof.
  revert s. induction env as [|e env IH]; intros s Hinv; simpl.
  - destruct (stopped (loop_t s)) eqn:Hst; [|discriminate].
    by intros [= <-].
  - destruct (stopped (loop_t s)) eqn:Hst; [by intros [= <-]|].
    apply (loop_invariant_body e) in Hinv.
    destruct (disconnect_called e); [|by apply IH].
    destruct (disconnect (loop_t (connectWithLock_body e s))) as [t [err|]];
      [|discriminate].
    apply IH. exact Hinv.
Qed.

(** While nobody calls [disconnect()], a loop entered with [stopped] false
    does not end. *)
Lemma connectWithLock_loop_running (env : list Interference) (s : LoopState) :
  stopped (loop_t s) = false →
  Forall (λ e, disconnect_called e = false) env →
  connectWithLock_loop env s = None.
Proof.
  revert s. induction env as [|e env IH]; intros s Hst Hno; simpl;
    rewrite Hst; [done|].
  inversion Hno as [|? ? He Hrest]; subst. rewrite He.
  apply IH; [|done]. by rewrite connectWithLock_body_stopped.
Qed.

Lemma connectWithLock_release_app (s : LoopState) :
  connectWithLock_release s
  = gate_calls s
    ++ (if connectionSlotAcquired s then [Call_Release] else [])
    ++ (if connectionLockAcquired s then [Call_Unlock] else []).
Proof.
  unfold connectWithLock_release.
  destruct (connectionSlotAcquired s), (connectionLockAcquired s); simpl;
    rewrite <- ?app_assoc, ?app_nil_r; done.
Qed.

Lemma loop_invariant_init (t : TargetState) :
  loop_invariant
    {| loop_t := t; connectionSlotAcquired := false;
       connectionLockAcquired := false; gate_calls := [] |}.
Proof.
  unfold loop_invariant. simpl.
  split; [|split; [|split; [|split]]].
  - split; [done|]. intros H. by apply elem_of_nil in H.
  - split; [done|]. intros H. by apply elem_of_nil in H.
  - apply not_elem_of_nil.
  - apply not_elem_of_nil.
  - intros [|? ?] ? H; discriminate H.
Qed.

Lemma connect_not_last (l pre post : list GateCall) (c : GateCall) :
  c ≠ Call_connect →
  l ++ [c] = pre ++ Call_connect :: post →
  ∃ post', l = pre ++ Call_connect :: post'.
Proof.
  intros Hc Heq.
  apply snoc_eq_split in Heq as [(_ & _ & Hx) | (post' & _ & ->)].
  - by destruct Hc.
  - by exists post'.
Qed.

(** C1: when [connectWithLock] returns, [stopped] is true; every call of
    [connect] was made with the slot and the lock both acquired and neither
    released; the slot is released exactly when it was acquired and the lock
    is unlocked exactly when it was acquired.  And the loop is left for no
    other reason: while [stopped] stays false the function does not return. *)
Theorem connectWithLock_guarded_exit :
  (∀ (env : list Interference) (t t' : TargetState) (calls : list GateCall),
     connectWithLock env t = Some (Return (t', calls)) →
     stopped t' = true
     ∧ (∀ pre post, calls = pre ++ Call_connect :: post →
          Call_TryAcquire true ∈ pre ∧ Call_Try true ∈ pre
          ∧ (Call_Release ∉ pre) ∧ (Call_Unlock ∉ pre))
     ∧ (Call_Release ∈ calls ↔ Call_TryAcquire true ∈ calls)
     ∧ (Call_Unlock ∈ calls ↔ Call_Try true ∈ calls))
  ∧ (∀ (env : list Interference) (t : TargetState),
       stopped t = false →
       Forall (λ e, disconnect_called e = false) env →
       connectWithLock env t = None).
Proof.
  split.
  - intros env t t' calls. unfold connectWithLock.
    destruct (connectWithLock_loop env _) as [[r|]|] eqn:Hloop; try discriminate.
    intros [= <- <-].
    apply connectWithLock_loop_exit in Hloop as [Hinv Hst].
    2:{ apply loop_invariant_init. }
    destruct Hinv as (Hslot & Hlock & Hrel & Hunl & Hg).
    split; [exact Hst|].
    rewrite connectWithLock_release_app.
    split; [|split].
    + intros pre post Heq.
      assert (Hpre : ∃ post', gate_calls r = pre ++ Call_connect :: post').
      { destruct (connectionSlotAcquired r), (connectionLockAcquired r);
          simpl in Heq; rewrite ?app_nil_r in Heq.
        - change [Call_Release; Call_Unlock]
            with ([Call_Release] ++ [Call_Unlock]) in Heq.
          rewrite app_assoc in Heq.
          apply connect_not_last in Heq as [post1 Heq]; [|done].
          by apply connect_not_last in Heq.
        - by apply connect_not_last in Heq.
        - by apply connect_not_last in Heq.
        - by exists post. }
      destruct Hpre as [post' Hpre].
      destruct (Hg pre post' Hpre) as [H1 H2].
      split; [done|]. split; [done|].
      rewrite Hpre in Hrel, Hunl. rewrite elem_of_app in Hrel, Hunl.
      split; intros Hin; [apply Hrel | apply Hunl]; by left.
    + rewrite !elem_of_app, <- Hslot.
      destruct (connectionSlotAcquired r), (connectionLockAcquired r);
        rewrite ?elem_of_nil, ?list_elem_of_singleton; split; intros H;
        try done; try (right; by left); try (by left);
        destruct H as [H|[H|H]]; done.
    + rewrite !elem_of_app, <- Hlock.
      destruct (connectionSlotAcquired r), (connectionLockAcquired r);
        rewrite ?elem_of_nil, ?list_elem_of_singleton; split; intros H;
        try done; try (right; by right); try (by left);
        destruct H as [H|[H|H]]; done.
  - intros env t Hst Hno. unfold connectWithLock.
    by rewrite connectWithLock_loop_running.
Qed.

(** ** Further properties of Equal *)

(** What [Equal] does in every case: with different addresses it returns
    false before the credentials are read; with the same addresses it reads
    both credentials, which panics when either pointer is nil. *)
Lemma Equal_outcome (t : TargetState) (other : targetpb.Target) :
  Equal t other
  = if decide (targetpb.Addresses (target t) = targetpb.Addresses other)
    then match targetpb.Credentials_ (target t), targetpb.Credentials_ other with
         | Some mine, Some theirs =>
             Return (bool_decide
                       (targetpb.Username mine = targetpb.Username theirs
                        ∧ targetpb.Password mine = targetpb.Password theirs))
         | _, _ => Panic
         end
    else Return false.
Proof.
  unfold Equal.
  destruct (length (targetpb.Addresses (target t))
            =? length (targetpb.Addresses other))%nat eqn:Hlen; simpl.
  - apply Nat.eqb_eq in Hlen.
    pose proof (Equal_loop_same_length (targetpb.Addresses (target t)) []
                  (targetpb.Addresses other) Hlen) as Hloop.
    simpl in Hloop. rewrite Hloop.
    destruct (decide (targetpb.Addresses (target t) = targetpb.Addresses other));
      [|done].
    destruct (targetpb.Credentials_ (target t)) as [mine|]; [|done].
    destruct (targetpb.Credentials_ other) as [theirs|]; [|done].
    destruct (String.eqb (targetpb.Username mine) (targetpb.Username theirs))
      eqn:Hu; simpl.
    + destruct (String.eqb (targetpb.Password mine) (targetpb.Password theirs))
        eqn:Hp; simpl.
      * apply String.eqb_eq in Hu, Hp. by rewrite bool_decide_eq_true_2.
      * apply String.eqb_neq in Hp. rewrite bool_decide_eq_false_2; [done|].
        intros [_ ?]. done.
    + apply String.eqb_neq in Hu. rewrite bool_decide_eq_false_2; [done|].
      intros [? _]. done.
  - apply Nat.eqb_neq in Hlen. rewrite decide_False; [done|].
    intros Heq. by rewrite Heq in Hlen.
Qed.

(** X2: when the two address sequences differ, in length or at any index,
    [Equal] returns false, whatever the credentials are, nil included. *)
Theorem Equal_addresses_differ (t : TargetState) (other : targetpb.Target) :
  targetpb.Addresses (target t) ≠ targetpb.Addresses other →
  Equal t other = Return false.
Proof.
  intros Hne. rewrite Equal_outcome. by rewrite decide_False.
Qed.

(** X3: [Equal] panics exactly when the addresses are the same sequence and
    the credentials are nil on at least one side; in particular the index
    [other.Addresses[i]] is never out of range. *)
Theorem Equal_Panic_iff (t : TargetState) (other : targetpb.Target) :
  Equal t other = Panic ↔
  targetpb.Addresses (target t) = targetpb.Addresses other
  ∧ (targetpb.Credentials_ (target t) = None
     ∨ targetpb.Credentials_ other = None).
Proof.
  rewrite Equal_outcome.
  destruct (decide (targetpb.Addresses (target t) = targetpb.Addresses other))
    as [Heq|Hne].
  - destruct (targetpb.Credentials_ (target t)) as [mine|],
             (targetpb.Credentials_ other) as [theirs|]; split;
      try done; try (intros _; split; [done|]; by (left + right)).
    intros [_ [?|?]]; done.
  - split; [done|]. intros [? _]. done.
Qed.

(** X4: [Equal] does not depend on which of the two descriptors is the
    receiver's: swapping them gives the same answer, or the same panic. *)
Theorem Equal_symmetric (t t' : TargetState) :
  Equal t (target t') = Equal t' (target t).
Proof.
  rewrite !Equal_outcome.
  destruct (decide (targetpb.Addresses (target t) = targetpb.Addresses (target t')))
    as [Heq|Hne].
  - rewrite decide_True by done.
    destruct (targetpb.Credentials_ (target t)) as [mine|],
             (targetpb.Credentials_ (target t')) as [theirs|]; try done.
    f_equal. apply bool_decide_ext. split; intros [-> ->]; done.
  - rewrite decide_False; [done|]. intros Heq. by apply Hne.
Qed.

(** ** Further properties of the rejection filter *)

(** X5: the paths that the filter rejects are exactly those with at least two
    elements that start with [interfaces] and [interface] keyed
    [name=interface], or with [network-instances] and [network-instance]
    keyed [name=network-instance], or with [netconf-state]; the elements after
    the second, the keys of the first, and keys other than [name] play no
    part. *)
Theorem rejectUpdate_path_is_Some (path : list gnmipb.PathElem) :
  is_Some (rejectUpdate_path path) ↔
  ∃ e0 e1 rest,
    path = e0 :: e1 :: rest
    ∧ ((gnmipb.Name e0 = "interfaces" ∧ gnmipb.Name e1 = "interface"
        ∧ gnmipb.Key e1 !! "name" = Some "interface")
       ∨ (gnmipb.Name e0 = "network-instances"
          ∧ gnmipb.Name e1 = "network-instance"
          ∧ gnmipb.Key e1 !! "name" = Some "network-instance")
       ∨ gnmipb.Name e0 = "netconf-state").
Proof.
  destruct path as [|e0 [|e1 rest]].
  - split; [intros [? [=]] | intros (? & ? & ? & [=] & _)].
  - split; [intros [? [=]] | intros (? & ? & ? & [=] & _)].
  - unfold rejectUpdate_path. split.
    + intros Hsome. exists e0, e1, rest. split; [done|].
      destruct (String.eqb (gnmipb.Name e0) "interfaces") eqn:H0;
        destruct (String.eqb (gnmipb.Name e1) "interface") eqn:H1;
        destruct (String.eqb (gnmipb.Name e0) "network-instances") eqn:H2;
        destruct (String.eqb (gnmipb.Name e1) "network-instance") eqn:H3;
        destruct (String.eqb (gnmipb.Name e0) "netconf-state") eqn:H4;
        destruct (gnmipb.Key e1 !! "name") as [value|] eqn:Hk;
        simpl in Hsome;
        try (destruct (String.eqb value "interface") eqn:Hv1);
        try (destruct (String.eqb value "network-instance") eqn:Hv2);
        simpl in Hsome;
        rewrite ?String.eqb_eq in *;
        try (by destruct Hsome);
        subst; eauto 10.
    + intros (? & ? & ? & [= <- <- <-] & [(-> & -> & ->)|[(-> & -> & ->)| ->]]);
        simpl; eauto.
Qed.

(** X6: the error returned for a notification is the one of its first
    rejected update, in the order of the notification. *)
Theorem rejectUpdate_first_error
  (n : gnmipb.Notification) (pre post : list gnmipb.Update)
  (u : gnmipb.Update) (e : error) :
  gnmipb.GetUpdate n = pre ++ u :: post →
  (∀ v, v ∈ pre → rejectUpdate_body v = None) →
  rejectUpdate_body u = Some e →
  rejectUpdate n = Some e.
Proof.
  intros Heq Hpre Hu. unfold rejectUpdate. rewrite Heq. clear Heq.
  induction pre as [|v pre IH]; simpl.
  - by rewrite Hu.
  - rewrite (Hpre v) by left. apply IH. intros w Hw. apply Hpre. by right.
Qed.

(** X7: the filter reads nothing but the path elements of the updates: two
    notifications whose updates have the same path elements, in the same
    order, get the same answer, whatever their prefix, timestamp, deleted
    paths and values are. *)
Theorem rejectUpdate_reads_only_paths (n n' : gnmipb.Notification) :
  (λ u, gnmipb.GetElem (gnmipb.GetPath u)) <$> gnmipb.GetUpdate n
  = (λ u, gnmipb.GetElem (gnmipb.GetPath u)) <$> gnmipb.GetUpdate n' →
  rejectUpdate n = rejectUpdate n'.
Proof.
  unfold rejectUpdate.
  generalize (gnmipb.GetUpdate n') as l'.
  induction (gnmipb.GetUpdate n) as [|u l IH]; intros [|u' l'] Heq;
    simpl in Heq; try discriminate Heq; [done|].
  injection Heq as Hhead Htail. simpl.
  assert (Hbody : rejectUpdate_body u = rejectUpdate_body u').
  { unfold rejectUpdate_body. by rewrite Hhead. }
  rewrite Hbody. destruct (rejectUpdate_body u'); [done|]. by apply IH.
Qed.

(** ** Further properties of handleUpdate *)

Lemma set_connected_true_id (t : TargetState) :
  connected t = true → set_connected true t = t.
Proof. destruct t. simpl. by intros ->. Qed.

Lemma handleUpdate_connect_ts (w : World) :
  ts (handleUpdate_connect w) = set_connected true (ts w).
Proof.
  unfold handleUpdate_connect. destruct (connected (ts w)) eqn:E; simpl.
  - by rewrite set_connected_true_id.
  - reflexivity.
Qed.

(** The stores after [handleUpdate] on a data update that points to a
    notification: the notification and the prefix that the cache target is
    shown, written at their locations; a second defaulting of that prefix
    would change nothing. *)
Lemma handleUpdate_stores (w : World) (l : loc) (n : gnmipb.Notification) :
  valid_notification w l n →
  ∃ n' p path',
    notifications (handleUpdate w (data_update l)).1
    = <[l := n']> (notifications w)
    ∧ paths (handleUpdate w (data_update l)).1 = <[p := path']> (paths w)
    ∧ gnmipb.Prefix n' = Some p
    ∧ (String.eqb (gnmipb.Target path') EmptyString = true →
       set_Target (name (ts w)) path' = path').
Proof.
  intros Hvalid.
  apply valid_notification_connect in Hvalid as [Hl Hp].
  destruct (handleUpdate_connect_frame w) as (Hnots & Hpaths & Hname & _).
  change (handleUpdate w (data_update l))
    with (handleUpdate_Update (handleUpdate_connect w) l).
  destruct (gnmipb.Prefix n) as [p|] eqn:Hprefix.
  - destruct (Hp p eq_refl) as [path Hpath].
    rewrite (handleUpdate_Update_with_prefix _ l p n path Hl Hprefix Hpath).
    rewrite Hname, Hnots, Hpaths. rewrite Hnots in Hl.
    exists n, p,
      (if String.eqb (gnmipb.Target path) EmptyString
       then set_Target (name (ts w)) path else path).
    destruct (rejectUpdate n); simpl; rewrite (insert_id _ _ _ Hl);
      (split; [done|]); (split; [done|]); (split; [done|]);
      destruct (String.eqb (gnmipb.Target path) EmptyString) eqn:E;
      try done; congruence.
  - rewrite (handleUpdate_Update_nil_prefix _ l n Hl Hprefix).
    rewrite Hname, Hnots, Hpaths.
    exists (set_Prefix (Some (fresh (dom (paths w)))) n),
      (fresh (dom (paths w))),
      (set_Target (name (ts w)) gnmipb.Path_zero).
    destruct (rejectUpdate n); simpl; done.
Qed.

Lemma handleUpdate_writes_only_connected_name (w : World) (l : loc) :
  name (ts (handleUpdate w (data_update l)).1) = name (ts w).
Proof.
  change (handleUpdate w (data_update l))
    with (handleUpdate_Update (handleUpdate_connect w) l).
  rewrite (proj1 (handleUpdate_Update_frame (handleUpdate_connect w) l)).
  by destruct (handleUpdate_connect_frame w) as (_ & _ & -> & _).
Qed.

Lemma handleUpdate_ts (w : World) (msg : Message) :
  ts (handleUpdate w msg).1 = ts (handleUpdate_connect w).
Proof.
  unfold handleUpdate.
  destruct msg as [[[[l| |]|]]|]; simpl; try done.
  apply handleUpdate_Update_frame.
Qed.

(** X8: [handleUpdate] writes no field of the target state but [connected],
    which it leaves true: whatever the message, and also when it returns an
    error or panics. *)
Theorem handleUpdate_writes_only_connected (w : World) (msg : Message) :
  ts (handleUpdate w msg).1 = set_connected true (ts w).
Proof.
  rewrite handleUpdate_ts. apply handleUpdate_connect_ts.
Qed.

(** X9: what [handleUpdate] tells the cache target.  It calls [Connect]
    exactly when [connected] was false, and before anything else; after that
    it makes at most one more call, a [Sync] or a [GnmiUpdate]; it never calls
    [Disconnect] or [Reset]. *)
Theorem handleUpdate_calls (w : World) (msg : Message) :
  ∃ rest,
    cache_calls (handleUpdate w msg).1
    = cache_calls w ++ (if connected (ts w) then [] else [Cache_Connect]) ++ rest
    ∧ (rest = [] ∨ rest = [Cache_Sync]
       ∨ ∃ l n path, rest = [Cache_GnmiUpdate l n path]).
Proof.
  unfold handleUpdate.
  pose proof (handleUpdate_connect_calls w) as Hcalls.
  destruct msg as [[[[l| |]|]]|]; simpl.
  - destruct (handleUpdate_Update_frame (handleUpdate_connect w) l)
      as [_ [Hsame|(n & path & Hone)]].
    + exists []. rewrite Hsame, Hcalls, app_nil_r. eauto.
    + exists [Cache_GnmiUpdate l n path]. rewrite Hone, Hcalls, <- app_assoc.
      eauto 10.
  - exists [Cache_Sync]. rewrite Hcalls, <- app_assoc. eauto.
  - exists []. rewrite Hcalls, app_nil_r. eauto.
  - exists []. rewrite Hcalls, app_nil_r. eauto.
  - exists []. rewrite Hcalls, app_nil_r. eauto.
Qed.

(** X10: on a message that is well formed (a data update points to a
    notification whose prefix, if any, points to a path) [handleUpdate] does
    not panic, and it returns nil exactly for a sync response, for a data
    update that the filter rejects, and for a data update that the cache
    target accepts; a message of another type, an error response, an unset
    response and a data update refused by the cache target give an error. *)
Theorem handleUpdate_nil_iff (w : World) (msg : Message) :
  (∀ l, msg = data_update l → ∃ n, valid_notification w l n) →
  (∃ e, (handleUpdate w msg).2 = Return e)
  ∧ ((handleUpdate w msg).2 = Return None ↔
     (∃ b, msg = Message_SubscribeResponse
                   {| gnmipb.Response :=
                        Some (gnmipb.SubscribeResponse_SyncResponse b) |})
     ∨ (∃ l n, msg = data_update l
               ∧ notifications w !! l = Some n
               ∧ (is_Some (rejectUpdate n)
                  ∨ GnmiUpdate_error (cache_calls (handleUpdate w msg).1)
                    = None))).
Proof.
  intros Hwf. destruct msg as [[[[l|b|code text]|]]|name0].
  - destruct (Hwf l eq_refl) as [n Hvalid].
    pose proof Hvalid as [Hl0 _].
    apply valid_notification_connect in Hvalid as [Hl Hp].
    change (handleUpdate w (Message_SubscribeResponse
              {| gnmipb.Response := Some (gnmipb.SubscribeResponse_Update l) |}))
      with (handleUpdate_Update (handleUpdate_connect w) l).
    assert (Hcase :
      ∃ w1 c,
        handleUpdate_Update (handleUpdate_connect w) l
        = match rejectUpdate n with
          | Some _ => (w1, Return None)
          | None =>
              (cache_call c w1,
               match GnmiUpdate_error (cache_calls (cache_call c w1)) with
               | Some _ => Return (Some (fmt_Errorf
                                     "targetCache cache update error: %t: %+v"))
               | None => Return None
               end)
          end).
    { destruct (gnmipb.Prefix n) as [p|] eqn:Hprefix.
      - destruct (Hp p eq_refl) as [path Hpath].
        rewrite (handleUpdate_Update_with_prefix _ l p n path Hl Hprefix Hpath).
        eexists _, _. reflexivity.
      - rewrite (handleUpdate_Update_nil_prefix _ l n Hl Hprefix).
        eexists _, _. reflexivity. }
    destruct Hcase as (w1 & c & ->).
    destruct (rejectUpdate n) as [e|] eqn:Hrej.
    + split; [eauto|]. split; [|done]. intros _. right.
      exists l, n. eauto.
    + simpl.
      destruct (GnmiUpdate_error (cache_calls w1 ++ [c])) eqn:Herr.
      * split; [eauto|]. split; [done|].
        intros [(b & [=]) | (l' & n' & [= <-] & Hn' & [[? Hs]|Hnone])].
        -- rewrite Hl0 in Hn'. simplify_eq.
        -- discriminate.
      * split; [eauto|]. split; [|done]. intros _. right.
        exists l, n. eauto.
  - split; [simpl; eauto|]. split; [|done]. intros _. left. by exists b.
  - split; [simpl; eauto|]. simpl. split; [done|].
    intros [(b & [=]) | (l' & n' & [=] & _)].
  - split; [simpl; eauto|]. simpl. split; [done|].
    intros [(b & [=]) | (l' & n' & [=] & _)].
  - split; [simpl; eauto|]. simpl. split; [done|].
    intros [(b & [=]) | (l' & n' & [=] & _)].
Qed.

(** X11: a message that is not a data update leaves both stores as they
    are. *)
Theorem handleUpdate_other_messages_keep_stores (w : World) (msg : Message) :
  (∀ l, msg ≠ data_update l) →
  notifications (handleUpdate w msg).1 = notifications w
  ∧ paths (handleUpdate w msg).1 = paths w.
Proof.
  intros Hmsg.
  destruct (handleUpdate_connect_frame w) as (Hnots & Hpaths & _).
  unfold handleUpdate. destruct msg as [[[[l| |]|]]|]; simpl; try done.
  by destruct (Hmsg l).
Qed.

(** X12: prefix defaulting is done once: when the same data update is handled
    a second time, no store is written any more. *)
Theorem handleUpdate_twice_keeps_stores
  (w : World) (l : loc) (n : gnmipb.Notification) :
  valid_notification w l n →
  notifications
    (handleUpdate (handleUpdate w (data_update l)).1 (data_update l)).1
  = notifications (handleUpdate w (data_update l)).1
  ∧ paths (handleUpdate (handleUpdate w (data_update l)).1 (data_update l)).1
    = paths (handleUpdate w (data_update l)).1.
Proof.
  intros Hvalid.
  destruct (handleUpdate_stores w l n Hvalid)
    as (n' & p & path' & Hnots & Hpaths & Hprefix & Hfix).
  pose proof (handleUpdate_writes_only_connected_name w l) as Hname.
  set (w1 := (handleUpdate w (data_update l)).1) in *.
  assert (Hl1 : notifications w1 !! l = Some n')
    by (rewrite Hnots; apply lookup_insert_eq).
  assert (Hp1 : paths w1 !! p = Some path')
    by (rewrite Hpaths; apply lookup_insert_eq).
  destruct (handleUpdate_connect_frame w1) as (Hn1 & Hp1' & Hname1 & _).
  change (handleUpdate w1 (data_update l))
    with (handleUpdate_Update (handleUpdate_connect w1) l).
  rewrite <- Hn1 in Hl1. rewrite <- Hp1' in Hp1.
  rewrite (handleUpdate_Update_with_prefix _ l p n' path' Hl1 Hprefix Hp1).
  rewrite Hn1, Hp1', Hname1, Hname. rewrite Hp1' in Hp1.
  assert (Hsame : (if String.eqb (gnmipb.Target path') EmptyString
                   then set_Target (name (ts w)) path' else path') = path').
  { destruct (String.eqb (gnmipb.Target path') EmptyString) eqn:E; [|done].
    by apply Hfix. }
  rewrite Hsame, (insert_id _ _ _ Hp1).
  by destruct (rejectUpdate n').
Qed.

Lemma handleUpdate_calls_after_connect (w : World) (msg : Message) :
  ∃ rest,
    cache_calls (handleUpdate w msg).1
    = cache_calls (handleUpdate_connect w) ++ rest.
Proof.
  unfold handleUpdate. destruct msg as [[[[l| |]|]]|]; simpl.
  - destruct (handleUpdate_Update_frame (handleUpdate_connect w) l)
      as [_ [Hsame|(n & path & Hone)]].
    + exists []. by rewrite Hsame, app_nil_r.
    + by exists [Cache_GnmiUpdate l n path].
  - by exists [Cache_Sync].
  - exists []. by rewrite app_nil_r.
  - exists []. by rewrite app_nil_r.
  - exists []. by rewrite app_nil_r.
Qed.

(** X13: once [disconnected] has run, the cache target has been told
    [Disconnect] and then [Reset], and the next message of any kind makes
    [handleUpdate] call [Connect] again before anything else. *)
Theorem handleUpdate_after_disconnected (w : World) (msg : Message) :
  ∃ rest,
    cache_calls (handleUpdate (disconnected w) msg).1
    = cache_calls w ++ [Cache_Disconnect; Cache_Reset; Cache_Connect] ++ rest.
Proof.
  destruct (handleUpdate_calls_after_connect (disconnected w) msg)
    as [rest Hrest].
  exists rest. rewrite Hrest, handleUpdate_connect_calls. simpl.
  by rewrite <- !app_assoc.
Qed.

Lemma resets_paired_nil : resets_paired [].
Proof. split; intros [|? ?] ? H; discriminate H. Qed.

Lemma resets_paired_snoc (calls : list CacheCall) (c : CacheCall) :
  resets_paired calls →
  c ≠ Cache_Disconnect → c ≠ Cache_Reset →
  resets_paired (calls ++ [c]).
Proof.
  intros [Hd Hr] Hc1 Hc2. split; intros pre post Heq.
  - apply snoc_eq_split in Heq as [(_ & _ & Hx) | (post' & -> & ->)].
    + by destruct Hc1.
    + destruct (Hd pre post' eq_refl) as [q ->]. by exists (q ++ [c]).
  - apply snoc_eq_split in Heq as [(_ & _ & Hx) | (post' & -> & ->)].
    + by destruct Hc2.
    + by apply (Hr pre post').
Qed.

Lemma resets_paired_Disconnect_Reset (calls : list CacheCall) :
  resets_paired calls →
  resets_paired ((calls ++ [Cache_Disconnect]) ++ [Cache_Reset]).
Proof.
  intros [Hd Hr]. split; intros pre post Heq.
  - apply snoc_eq_split in Heq as [(_ & _ & [=]) | (post' & -> & Heq)].
    apply snoc_eq_split in Heq as [(-> & _ & _) | (post'' & -> & ->)].
    + by exists [].
    + destruct (Hd pre post'' eq_refl) as [q ->]. eexists. reflexivity.
  - apply snoc_eq_split in Heq as [(_ & -> & _) | (post' & -> & Heq)].
    + by exists calls.
    + apply snoc_eq_split in Heq as [(_ & _ & [=]) | (post'' & -> & ->)].
      by apply (Hr pre post'').
Qed.

Lemma resets_paired_step (w : World) (op : Op) :
  resets_paired (cache_calls w) → resets_paired (cache_calls (step w op).1).
Proof.
  intros Hw. destruct op; simpl.
  - done.
  - by destruct (disconnect (ts w)).
  - by apply resets_paired_Disconnect_Reset.
  - by destruct (reconnect (ts w)).
  - assert (Hc : resets_paired (cache_calls (handleUpdate_connect w))).
    { rewrite handleUpdate_connect_calls. destruct (connected (ts w)).
      - by rewrite app_nil_r.
      - by apply resets_paired_snoc. }
    assert (H : resets_paired (cache_calls (handleUpdate w msg).1)).
    { unfold handleUpdate. destruct msg as [[[[l| |]|]]|]; simpl; try done.
      - destruct (handleUpdate_Update_frame (handleUpdate_connect w) l)
          as [_ [->|(n & path & ->)]]; [done|].
        by apply resets_paired_snoc.
      - by apply resets_paired_snoc. }
    by destruct (handleUpdate w msg).
Qed.

(** X14: whatever operations run on a target state whose cache target has
    received nothing yet, the cache target is never told [Disconnect] without
    being told [Reset] at once after it, nor [Reset] without [Disconnect] just
    before it. *)
Theorem cache_Disconnect_Reset_paired (w0 : World) (ops : list Op) :
  cache_calls w0 = [] →
  (∀ pre post, cache_calls (run ops w0).1 = pre ++ Cache_Disconnect :: post →
     ∃ post', post = Cache_Reset :: post')
  ∧ (∀ pre post, cache_calls (run ops w0).1 = pre ++ Cache_Reset :: post →
       ∃ pre', pre = pre' ++ [Cache_Disconnect]).
Proof.
  intros H0.
  assert (Hinv : resets_paired (cache_calls w0))
    by (rewrite H0; apply resets_paired_nil).
  clear H0. revert w0 Hinv.
  induction ops as [|op ops IH]; intros w0 Hinv; simpl; [exact Hinv|].
  pose proof (resets_paired_step w0 op Hinv) as Hstep.
  destruct (step w0 op) as [w1 [[]|]]; simpl in *; [by apply IH | exact Hstep].
Qed.

(** ** Further properties of the fields of the target state *)

Lemma connect_ts_frame (t : TargetState) :
  config (connect t) = config t ∧ name (connect t) = name t
  ∧ target (connect t) = target t ∧ request (connect t) = request t.
Proof. unfold connect. repeat (case_match; simpl); done. Qed.

Lemma client_Close_ts_frame (t : TargetState) :
  config (client_Close t).1 = config t ∧ name (client_Close t).1 = name t
  ∧ target (client_Close t).1 = target t
  ∧ request (client_Close t).1 = request t
  ∧ connecting (client_Close t).1 = connecting t.
Proof. unfold client_Close. by destruct (client_ t). Qed.

(** The fields that make the identity of the target. *)
Lemma identity_step (w : World) (op : Op) :
  config (ts (step w op).1) = config (ts w)
  ∧ name (ts (step w op).1) = name (ts w)
  ∧ target (ts (step w op).1) = target (ts w)
  ∧ request (ts (step w op).1) = request (ts w).
Proof.
  destruct op; simpl.
  - apply connect_ts_frame.
  - unfold disconnect.
    destruct (client_Close_ts_frame (set_stopped true (ts w)))
      as (H1 & H2 & H3 & H4 & _).
    by destruct (client_Close (set_stopped true (ts w))).
  - done.
  - unfold reconnect.
    destruct (client_Close_ts_frame (ts w)) as (H1 & H2 & H3 & H4 & _).
    by destruct (client_Close (ts w)).
  - pose proof (handleUpdate_ts w msg) as H.
    destruct (handleUpdate w msg) as [w1 o]. simpl in *.
    by rewrite H, handleUpdate_connect_ts.
Qed.

(** X15: no operation writes the identity of the target: after any sequence
    of operations the configuration, the name, the target descriptor and the
    subscription request are those the state started with. *)
Theorem identity_is_immutable (w0 : World) (ops : list Op) :
  config (ts (run ops w0).1) = config (ts w0)
  ∧ name (ts (run ops w0).1) = name (ts w0)
  ∧ target (ts (run ops w0).1) = target (ts w0)
  ∧ request (ts (run ops w0).1) = request (ts w0).
Proof.
  revert w0. induction ops as [|op ops IH]; intros w0; simpl; [done|].
  destruct (identity_step w0 op) as (H1 & H2 & H3 & H4).
  destruct (step w0 op) as [w1 [[]|]]; simpl in *; [|done].
  destruct (IH w1) as (-> & -> & -> & ->). done.
Qed.

(** X16: [disconnect] is the only operation that writes [stopped]: every
    other operation leaves it as it is, and [disconnect] sets it even when the
    call then panics on a nil client. *)
Theorem stopped_written_by_disconnect_only (w : World) (op : Op) :
  (op ≠ Op_disconnect → stopped (ts (step w op).1) = stopped (ts w))
  ∧ (op = Op_disconnect → stopped (ts (step w op).1) = true).
Proof.
  destruct op; (split; [intros Hne|intros Heq]); try done; simpl.
  - apply connect_frame.
  - unfold disconnect.
    pose proof (proj2 (client_Close_frame (set_stopped true (ts w)))) as H.
    destruct (client_Close (set_stopped true (ts w))); simpl in *. congruence.
  - unfold reconnect.
    pose proof (proj2 (client_Close_frame (ts w))) as H.
    destruct (client_Close (ts w)); simpl in *. congruence.
  - pose proof (proj1 (handleUpdate_frame w msg)) as H.
    destruct (handleUpdate w msg); simpl in *. congruence.
Qed.

Lemma connecting_step (w : World) (op : Op) :
  (op = Op_connect → connecting (ts (step w op).1) = true)
  ∧ (connecting (ts w) = true → connecting (ts (step w op).1) = true).
Proof.
  destruct op; simpl.
  - split; intros _; unfold connect; repeat (case_match; simpl); done.
  - split; [done|]. unfold disconnect.
    destruct (client_Close_ts_frame (set_stopped true (ts w)))
      as (_ & _ & _ & _ & H).
    destruct (client_Close (set_stopped true (ts w))); simpl in *. congruence.
  - by split.
  - split; [done|]. unfold reconnect.
    destruct (client_Close_ts_frame (ts w)) as (_ & _ & _ & _ & H).
    destruct (client_Close (ts w)); simpl in *. congruence.
  - split; [done|].
    pose proof (handleUpdate_ts w msg) as H.
    destruct (handleUpdate w msg) as [w1 o]. simpl in *.
    by rewrite H, handleUpdate_connect_ts.
Qed.

Lemma connecting_run (ops : list Op) (w0 w : World) :
  connecting (ts w0) = true →
  run ops w0 = (w, Return tt) → connecting (ts w) = true.
Proof.
  revert w0. induction ops as [|op ops IH]; intros w0 Hc; simpl.
  - by intros [= <-].
  - pose proof (proj2 (connecting_step w0 op) Hc) as Hstep.
    destruct (step w0 op) as [w1 [[]|]]; [|discriminate].
    by apply IH.
Qed.

(** X17: [connecting] is set by every call of [connect], also by one whose
    set-up fails, and no operation clears it: after a sequence of operations
    that holds a [connect] and runs to its end, [connecting] is true. *)
Theorem connecting_after_connect (w0 w : World) (ops : list Op) :
  Op_connect ∈ ops →
  run ops w0 = (w, Return tt) →
  connecting (ts w) = true.
Proof.
  revert w0. induction ops as [|op ops IH]; intros w0 Hin; simpl.
  - by apply elem_of_nil in Hin.
  - pose proof (connecting_step w0 op) as [Hset _].
    destruct (step w0 op) as [w1 [[]|]] eqn:E; [|discriminate].
    simpl in Hset. intros Hrun.
    apply elem_of_cons in Hin as [<-|Hin].
    + apply (connecting_run ops w1 w); [by apply Hset | done].
    + by apply (IH w1).
Qed.

Lemma client_nil_step (w : World) (op : Op) :
  op ≠ Op_connect ∨ setup_always_fails NewQuery Validate connect_query →
  client_ (ts w) = None → client_ (ts (step w op).1) = None.
Proof.
  intros Hop Hnil. destruct op; simpl.
  - destruct Hop as [?|Hfail]; [done|]. unfold connect. simpl.
    destruct (NewQuery (request (ts w))) as [query|] eqn:Hq; [|done].
    destruct (Hfail (set_connecting true (ts w)) query Hq) as [e ->]. done.
  - unfold disconnect, client_Close. simpl. by rewrite Hnil.
  - done.
  - unfold reconnect, client_Close. by rewrite Hnil.
  - pose proof (proj2 (handleUpdate_frame w msg)) as H.
    destruct (handleUpdate w msg) as [w1 o]. simpl in *. by rewrite H.
Qed.

(** X18: the client is nil until a [connect] gets through its set-up.  From a
    state without a client, after operations that hold no [connect], or with
    a set-up that always fails, there is still no client, and both
    [disconnect] and [reconnect] panic. *)
Theorem no_client_before_connect (w0 : World) (ops : list Op) :
  client_ (ts w0) = None →
  Op_connect ∉ ops ∨ setup_always_fails NewQuery Validate connect_query →
  client_ (ts (run ops w0).1) = None
  ∧ (disconnect (ts (run ops w0).1)).2 = Panic
  ∧ (reconnect (ts (run ops w0).1)).2 = Panic.
Proof.
  intros Hnil Hops.
  assert (Hend : client_ (ts (run ops w0).1) = None).
  { revert w0 Hnil. induction ops as [|op ops IH]; intros w0 Hnil; simpl;
      [done|].
    assert (Hstep : client_ (ts (step w0 op).1) = None).
    { apply client_nil_step; [|done].
      destruct Hops as [Hno|Hfail]; [left|by right].
      intros ->. apply Hno. left. }
    destruct (step w0 op) as [w1 [[]|]]; simpl in *; [|done].
    apply IH; [|done].
    destruct Hops as [Hno|Hfail]; [left|by right].
    intros Hin. apply Hno. by right. }
  split; [done|].
  unfold disconnect, reconnect, client_Close. simpl. by rewrite Hend.
Qed.

(** ** Further properties of connectWithLock *)

Lemma tail_eq_split {A} (l tail pre post : list A) (x : A) :
  l ++ tail = pre ++ x :: post →
  x ∉ tail →
  ∃ post1, l = pre ++ x :: post1 ∧ post = post1 ++ tail.
Proof.
  revert post. induction tail as [|c tail IH] using rev_ind; intros post Heq Hx.
  - rewrite app_nil_r in Heq. exists post. by rewrite app_nil_r.
  - rewrite app_assoc in Heq.
    apply snoc_eq_split in Heq as [(_ & _ & ->) | (post' & -> & Heq)].
    + exfalso. apply Hx, elem_of_app. right. left.
    + destruct (IH post' Heq) as (post1 & -> & ->).
      { intros Hin. apply Hx, elem_of_app. by left. }
      exists post1. by rewrite <- app_assoc.
Qed.

(** An invariant of the loop is a property of the loop state that the body
    keeps and that a concurrent [disconnect()] which returns keeps. *)
Lemma connectWithLock_loop_invariant (P : LoopState → Prop) :
  (∀ e s, P s → P (connectWithLock_body e s)) →
  (∀ s t err, P s → disconnect (loop_t s) = (t, Return err) →
     P {| loop_t := t;
          connectionSlotAcquired := connectionSlotAcquired s;
          connectionLockAcquired := connectionLockAcquired s;
          gate_calls := gate_calls s |}) →
  ∀ env s r, P s → connectWithLock_loop env s = Some (Return r) → P r.
Proof.
  intros Hbody Hdisc env. induction env as [|e env IH]; intros s r Hs; simpl.
  - destruct (stopped (loop_t s)); [|discriminate]. by intros [= <-].
  - destruct (stopped (loop_t s)); [by intros [= <-]|].
    apply (Hbody e) in Hs.
    destruct (disconnect_called e); [|by apply IH].
    destruct (disconnect (loop_t (connectWithLock_body e s))) as [t [err|]] eqn:E;
      [|discriminate].
    apply IH. by apply (Hdisc _ t err).
Qed.

Lemma loop_order_init (t : TargetState) :
  loop_order
    {| loop_t := t; connectionSlotAcquired := false;
       connectionLockAcquired := false; gate_calls := [] |}.
Proof.
  unfold loop_order. simpl.
  split; [|split; [|split]]; try done.
  - intros [|? ?] ? H; discriminate H.
  - intros [|? ?] ? H; discriminate H.
  - intros [|? ?] ? ? H; discriminate H.
Qed.

Lemma loop_order_TryAcquire (s : LoopState) (r : bool) :
  loop_invariant s → loop_order s → connectionSlotAcquired s = false →
  loop_order
    {| loop_t := loop_t s; connectionSlotAcquired := r;
       connectionLockAcquired := connectionLockAcquired s;
       gate_calls := gate_calls s ++ [Call_TryAcquire r] |}.
Proof.
  intros (Hslot & _) (Honce & Honce' & Hafter & Himp) Hfalse.
  assert (Hnot : Call_TryAcquire true ∉ gate_calls s).
  { intros Hin. apply Hslot in Hin. congruence. }
  unfold loop_order. simpl. split; [|split; [|split]].
  - intros pre post Heq.
    apply snoc_eq_split in Heq as [(-> & _ & _) | (post' & _ & Heq)].
    + intros r0. apply not_elem_of_nil.
    + exfalso. apply Hnot. rewrite Heq, elem_of_app. right. left.
  - intros pre post Heq.
    apply snoc_eq_split in Heq as [(_ & _ & [=]) | (post' & -> & Heq)].
    intros r0 Hin. apply elem_of_app in Hin as [Hin|Hin].
    + by apply (Honce' pre post' Heq r0).
    + apply list_elem_of_singleton in Hin. discriminate Hin.
  - intros pre r0 post Heq.
    apply snoc_eq_split in Heq as [(_ & _ & [=]) | (post' & _ & Heq)].
    by apply (Hafter pre r0 post').
  - intros Hlock. apply Himp in Hlock. congruence.
Qed.

Lemma loop_order_Try (s : LoopState) (r : bool) :
  loop_invariant s → loop_order s →
  connectionSlotAcquired s = true → connectionLockAcquired s = false →
  loop_order
    {| loop_t := loop_t s;
       connectionSlotAcquired := connectionSlotAcquired s;
       connectionLockAcquired := r;
       gate_calls := gate_calls s ++ [Call_Try r] |}.
Proof.
  intros (Hslot & Hlock & _) (Honce & Honce' & Hafter & Himp) Htrue Hfalse.
  assert (Hnot : Call_Try true ∉ gate_calls s).
  { intros Hin. apply Hlock in Hin. congruence. }
  unfold loop_order. simpl. split; [|split; [|split]].
  - intros pre post Heq.
    apply snoc_eq_split in Heq as [(_ & _ & [=]) | (post' & -> & Heq)].
    intros r0 Hin. apply elem_of_app in Hin as [Hin|Hin].
    + by apply (Honce pre post' Heq r0).
    + apply list_elem_of_singleton in Hin. discriminate Hin.
  - intros pre post Heq.
    apply snoc_eq_split in Heq as [(-> & _ & _) | (post' & _ & Heq)].
    + intros r0. apply not_elem_of_nil.
    + exfalso. apply Hnot. rewrite Heq, elem_of_app. right. left.
  - intros pre r0 post Heq.
    apply snoc_eq_split in Heq as [(_ & -> & _) | (post' & _ & Heq)].
    + by apply Hslot.
    + by apply (Hafter pre r0 post').
  - done.
Qed.

Lemma loop_order_connect (s : LoopState) (t : TargetState) :
  loop_order s →
  loop_order
    {| loop_t := t;
       connectionSlotAcquired := connectionSlotAcquired s;
       connectionLockAcquired := connectionLockAcquired s;
       gate_calls := gate_calls s ++ [Call_connect] |}.
Proof.
  intros (Honce & Honce' & Hafter & Himp).
  unfold loop_order. simpl. split; [|split; [|split]].
  - intros pre post Heq.
    apply snoc_eq_split in Heq as [(_ & _ & [=]) | (post' & -> & Heq)].
    intros r0 Hin. apply elem_of_app in Hin as [Hin|Hin].
    + by apply (Honce pre post' Heq r0).
    + apply list_elem_of_singleton in Hin. discriminate Hin.
  - intros pre post Heq.
    apply snoc_eq_split in Heq as [(_ & _ & [=]) | (post' & -> & Heq)].
    intros r0 Hin. apply elem_of_app in Hin as [Hin|Hin].
    + by apply (Honce' pre post' Heq r0).
    + apply list_elem_of_singleton in Hin. discriminate Hin.
  - intros pre r0 post Heq.
    apply snoc_eq_split in Heq as [(_ & _ & [=]) | (post' & _ & Heq)].
    by apply (Hafter pre r0 post').
  - done.
Qed.

Lemma loop_order_body (e : Interference) (s : LoopState) :
  loop_invariant s ∧ loop_order s →
  loop_invariant (connectWithLock_body e s)
  ∧ loop_order (connectWithLock_body e s).
Proof.
  intros [Hinv Hord]. split; [by apply loop_invariant_body|].
  destruct s as [t slot lock calls].
  unfold connectWithLock_body. simpl.
  destruct slot; simpl.
  - destruct lock; simpl.
    + exact (loop_order_connect _ (connect t) Hord).
    + pose proof (loop_order_Try _ (lock_free e) Hinv Hord eq_refl eq_refl)
        as Hord'.
      simpl in Hord'.
      destruct (lock_free e); [|exact Hord'].
      exact (loop_order_connect _ (connect t) Hord').
  - pose proof (loop_invariant_TryAcquire _ (slot_free e) Hinv eq_refl) as Hinv'.
    pose proof (loop_order_TryAcquire _ (slot_free e) Hinv Hord eq_refl)
      as Hord'.
    simpl in Hinv', Hord'.
    destruct (slot_free e); simpl; [|exact Hord'].
    destruct lock; simpl.
    + exact (loop_order_connect _ (connect t) Hord').
    + pose proof (loop_order_Try _ (lock_free e) Hinv' Hord' eq_refl eq_refl)
        as Hord''.
      simpl in Hord''.
      destruct (lock_free e); [|exact Hord''].
      exact (loop_order_connect _ (connect t) Hord'').
Qed.

(** Both invariants hold when the loop is left. *)
Lemma connectWithLock_loop_order (env : list Interference) (t : TargetState)
  (r : LoopState) :
  connectWithLock_loop env
    {| loop_t := t; connectionSlotAcquired := false;
       connectionLockAcquired := false; gate_calls := [] |}
  = Some (Return r) →
  loop_invariant r ∧ loop_order r.
Proof.
  apply (connectWithLock_loop_invariant (λ s, loop_invariant s ∧ loop_order s)).
  - intros e s. apply loop_order_body.
  - intros s t0 err Hs _. exact Hs.
  - split; [apply loop_invariant_init | apply loop_order_init].
Qed.

Lemma connectWithLock_Return (env : list Interference) (t t' : TargetState)
  (calls : list GateCall) :
  connectWithLock env t = Some (Return (t', calls)) →
  ∃ r,
    connectWithLock_loop env
      {| loop_t := t; connectionSlotAcquired := false;
         connectionLockAcquired := false; gate_calls := [] |}
    = Some (Return r)
    ∧ t' = loop_t r
    ∧ calls = gate_calls r
              ++ (if connectionSlotAcquired r then [Call_Release] else [])
              ++ (if connectionLockAcquired r then [Call_Unlock] else []).
Proof.
  unfold connectWithLock.
  destruct (connectWithLock_loop env _) as [[r|]|]; try discriminate.
  intros [= <- <-]. exists r. by rewrite connectWithLock_release_app.
Qed.

Lemma release_tail_no_try (slot lock : bool) (c : GateCall) :
  c ≠ Call_Release → c ≠ Call_Unlock →
  c ∉ (if slot then [Call_Release] else [])
      ++ (if lock then [Call_Unlock] else []).
Proof.
  intros H1 H2 Hin. apply elem_of_app in Hin as [Hin|Hin].
  - destruct slot; [|by apply elem_of_nil in Hin].
    by apply list_elem_of_singleton in Hin.
  - destruct lock; [|by apply elem_of_nil in Hin].
    by apply list_elem_of_singleton in Hin.
Qed.

(** X19: [connectWithLock] asks for the slot until it gets it and never again,
    and the same for the lock: in the calls of a run that returns, no
    [TryAcquire] follows a successful [TryAcquire] and no [Try] follows a
    successful [Try]. *)
Theorem connectWithLock_acquires_once
  (env : list Interference) (t t' : TargetState) (calls : list GateCall) :
  connectWithLock env t = Some (Return (t', calls)) →
  (∀ pre post, calls = pre ++ Call_TryAcquire true :: post →
     ∀ r, Call_TryAcquire r ∉ post)
  ∧ (∀ pre post, calls = pre ++ Call_Try true :: post →
       ∀ r, Call_Try r ∉ post).
Proof.
  intros Hret.
  apply connectWithLock_Return in Hret as (s & Hloop & _ & ->).
  apply connectWithLock_loop_order in Hloop as [_ (Honce & Honce' & _)].
  split; intros pre post Heq r.
  - apply tail_eq_split in Heq as (post1 & Hcalls & ->);
      [|by apply release_tail_no_try].
    rewrite elem_of_app. intros [Hin|Hin].
    + by apply (Honce pre post1 Hcalls r).
    + by apply release_tail_no_try in Hin.
  - apply tail_eq_split in Heq as (post1 & Hcalls & ->);
      [|by apply release_tail_no_try].
    rewrite elem_of_app. intros [Hin|Hin].
    + by apply (Honce' pre post1 Hcalls r).
    + by apply release_tail_no_try in Hin.
Qed.

(** X20: the lock is only asked for while the slot is held: every [Try],
    whatever its answer, comes after a successful [TryAcquire]. *)
Theorem connectWithLock_lock_after_slot
  (env : list Interference) (t t' : TargetState) (calls : list GateCall) :
  connectWithLock env t = Some (Return (t', calls)) →
  ∀ pre r post, calls = pre ++ Call_Try r :: post →
    Call_TryAcquire true ∈ pre.
Proof.
  intros Hret.
  apply connectWithLock_Return in Hret as (s & Hloop & _ & ->).
  apply connectWithLock_loop_order in Hloop as [_ (_ & _ & Hafter & _)].
  intros pre r post Heq.
  apply tail_eq_split in Heq as (post1 & Hcalls & _);
    [|by apply release_tail_no_try].
  by apply (Hafter pre r post1).
Qed.

(** X21: the releases come last and in a fixed order.  The calls of a run
    that returns are the calls of the loop, none of which is a [Release] or an
    [Unlock], followed by nothing, by [Release], or by [Release] and then
    [Unlock]: the lock is never unlocked without the slot being released just
    before. *)
Theorem connectWithLock_release_order
  (env : list Interference) (t t' : TargetState) (calls : list GateCall) :
  connectWithLock env t = Some (Return (t', calls)) →
  ∃ body tail,
    calls = body ++ tail
    ∧ (tail = [] ∨ tail = [Call_Release] ∨ tail = [Call_Release; Call_Unlock])
    ∧ (Call_Release ∉ body) ∧ (Call_Unlock ∉ body).
Proof.
  intros Hret.
  apply connectWithLock_Return in Hret as (s & Hloop & _ & ->).
  apply connectWithLock_loop_order
    in Hloop as [(_ & _ & Hrel & Hunl & _) (_ & _ & _ & Himp)].
  eexists _, _. split; [reflexivity|]. split; [|done].
  destruct (connectionLockAcquired s).
  - rewrite Himp by done. eauto.
  - destruct (connectionSlotAcquired s); eauto.
Qed.

Lemma connectWithLock_body_lock_busy (e : Interference) (s : LoopState) :
  connectionLockAcquired s = false →
  (connectionSlotAcquired s = false ∧ slot_free e = false)
  ∨ lock_free e = false →
  loop_t (connectWithLock_body e s) = loop_t s
  ∧ connectionLockAcquired (connectWithLock_body e s) = false
  ∧ (connectionSlotAcquired s = false → slot_free e = false →
     connectionSlotAcquired (connectWithLock_body e s) = false).
Proof.
  destruct s as [t slot lock calls]. simpl. intros -> Hbusy.
  unfold connectWithLock_body. simpl.
  destruct slot; simpl.
  - destruct Hbusy as [[[=] _]| ->]. done.
  - destruct (slot_free e) eqn:Hs; simpl; [|done].
    destruct Hbusy as [[_ [=]]| ->]. done.
Qed.

Lemma connectWithLock_loop_no_client (env : list Interference) (s : LoopState) :
  connectionLockAcquired s = false →
  client_ (loop_t s) = None →
  stopped (loop_t s) = false →
  (connectionSlotAcquired s = false ∧ Forall (λ e, slot_free e = false) env)
  ∨ Forall (λ e, lock_free e = false) env →
  Exists (λ e, disconnect_called e = true) env →
  connectWithLock_loop env s = Some Panic.
Proof.
  revert s. induction env as [|e env IH]; intros s Hlock Hnil Hst Hbusy Hdisc.
  - inversion Hdisc.
  - simpl. rewrite Hst.
    assert (Hhere : (connectionSlotAcquired s = false ∧ slot_free e = false)
                    ∨ lock_free e = false).
    { destruct Hbusy as [[Hs Hall]|Hall]; inversion Hall; subst; eauto. }
    destruct (connectWithLock_body_lock_busy e s Hlock Hhere)
      as (Ht & Hlock' & Hslot').
    destruct (disconnect_called e) eqn:Hd.
    + unfold disconnect, client_Close. simpl. by rewrite Ht, Hnil.
    + apply IH; try done; try congruence.
      * destruct Hbusy as [[Hs Hall]|Hall]; inversion Hall; subst.
        -- left. split; [by apply Hslot'|done].
        -- by right.
      * inversion Hdisc; subst; [congruence|done].
Qed.

(** X22: [disconnect()] called before [connect] has made a client ends the
    process.  When the loop is entered without a client and the slot is never
    free, or the lock is never free (another instance holds it), [connect] is
    not called, [t.client] stays nil, and the first concurrent [disconnect()]
    panics in [t.client.Close()]. *)
Theorem connectWithLock_disconnect_without_client
  (env : list Interference) (t : TargetState) :
  client_ t = None →
  stopped t = false →
  Forall (λ e, slot_free e = false) env
  ∨ Forall (λ e, lock_free e = false) env →
  Exists (λ e, disconnect_called e = true) env →
  connectWithLock env t = Some Panic.
Proof.
  intros Hnil Hst Hbusy Hdisc. unfold connectWithLock.
  rewrite connectWithLock_loop_no_client; try done.
  destruct Hbusy; [left|right]; done.
Qed.



(** ** Properties of StartServer *)

(** X24: [StartServer] never returns nil.  It returns an error exactly when
    loading the certificate, creating the subscribe server or listening
    fails, and then the error of the first step that failed, with no later
    step made; otherwise it starts serving and blocks.  The cache is given
    its client only once both the certificate and the subscribe server are
    there, the port listened on is the configured one, and [srv.Stop()] is
    never called, not even when listening fails after the server was made. *)
Theorem StartServer_outcome (lib : ServerLibraries) (config : ServerConfig) :
  let tls := NewServerTLSFromFile_fails lib (ServerTLSCert config)
               (ServerTLSKey config) in
  let sub := subscribe_NewServer_fails lib in
  let lis := Listen_fails lib (ServerPort config) in
  (StartServer lib config).2 ≠ Server_returns None
  ∧ ((StartServer lib config).2 = Server_blocks
     ↔ tls = false ∧ sub = false ∧ lis = false)
  ∧ (tls = true →
     StartServer lib config
     = ([Server_NewServerTLSFromFile (ServerTLSCert config) (ServerTLSKey config)],
        Server_returns (Some (fmt_Errorf "failed to generate credentials: %v"))))
  ∧ (tls = false → sub = true →
     (StartServer lib config).2
     = Server_returns (Some (fmt_Errorf "Could not instantiate gNMI server: %v"))
     ∧ ∀ port, Server_Listen port ∉ (StartServer lib config).1)
  ∧ (tls = false → sub = false → lis = true →
     (StartServer lib config).2
     = Server_returns (Some (fmt_Errorf "failed to listen: %v"))
     ∧ Server_go_Serve ∉ (StartServer lib config).1)
  ∧ (Server_SetClient ∈ (StartServer lib config).1
     ↔ tls = false ∧ sub = false)
  ∧ (∀ port, Server_Listen port ∈ (StartServer lib config).1 →
       port = ServerPort config)
  ∧ Server_Stop ∉ (StartServer lib config).1.
Proof.
  unfold StartServer.
  destruct (NewServerTLSFromFile_fails lib _ _),
           (subscribe_NewServer_fails lib),
           (Listen_fails lib _); simpl;
    split_and!; try done;
    try (intros; discriminate);
    try (intros; split; [done|]);
    try (split; [intros; discriminate | intros (? & ? & ?); discriminate]);
    repeat intro;
    rewrite ?elem_of_cons, ?elem_of_nil in *;
    intuition (try discriminate; try congruence).
Qed.

End Receivers.

(** ** Concrete runs *)

Lemma rejectUpdate_concrete_cases_witness :
  rejectUpdate (notification_of None [update_of path_interface_self])
  = Some (errors_New "bug for Arista interface path")
  ∧ rejectUpdate (notification_of None [update_of path_network_instance_self])
    = Some (errors_New "bug for Arista isis adjacency path")
  ∧ rejectUpdate (notification_of None [update_of path_interface_eth0]) = None
  ∧ rejectUpdate (notification_of None [update_of path_netconf_state_capabilities])
    = Some (errors_New "bug for netconf-state path").
Proof.
  split; [|split; [|split]].
  - apply (rejectUpdate_concrete_cases _ (update_of path_interface_self));
      reflexivity.
  - apply (rejectUpdate_concrete_cases _ (update_of path_network_instance_self));
      reflexivity.
  - apply (rejectUpdate_concrete_cases _ (update_of path_interface_eth0));
      reflexivity.
  - apply (rejectUpdate_concrete_cases
             (notification_of None [update_of path_netconf_state_capabilities])
             (update_of path_netconf_state_capabilities) eq_refl
           ) with (keys := ∅) (x := elem "capabilities" ∅) (more := []).
    reflexivity.
Defined.

(** C5 as stated fails: the path [[netconf-state]], with no further element,
    starts with an element named [netconf-state] and is not rejected. *)
Lemma rejectUpdate_netconf_state_alone_accepted :
  ¬ (∀ (u : gnmipb.Update) (e0 : gnmipb.PathElem) (rest : list gnmipb.PathElem),
       gnmipb.GetElem (gnmipb.GetPath u) = e0 :: rest →
       gnmipb.Name e0 = "netconf-state" →
       is_Some (rejectUpdate_body u)
       ∧ ∀ n, u ∈ gnmipb.GetUpdate n → is_Some (rejectUpdate n)).
Proof.
  intros H.
  destruct (H (update_of path_netconf_state_only) (elem "netconf-state" ∅) []
              eq_refl eq_refl) as [[e He] _].
  vm_compute in He. discriminate He.
Qed.

Lemma rejectUpdate_netconf_state_two_elements_witness :
  rejectUpdate_body (update_of path_netconf_state_capabilities)
  = Some (errors_New "bug for netconf-state path")
  ∧ is_Some (rejectUpdate
               (notification_of None
                  [update_of path_interface_eth0;
                   update_of path_netconf_state_capabilities])).
Proof.
  destruct (rejectUpdate_netconf_state_two_elements
              (update_of path_netconf_state_capabilities)
              (elem "netconf-state" ∅) (elem "capabilities" ∅) []
              eq_refl eq_refl) as [Hbody Hn].
  split; [exact Hbody|].
  apply Hn. simpl. apply list_elem_of_further, list_elem_of_here.
Defined.

Lemma Equal_nil_Credentials_panics_witness :
  Equal (new_TargetState "router1" target_without_credentials)
        target_with_credentials = Panic.
Proof.
  apply Equal_nil_Credentials_panics.
  - reflexivity.
  - left. reflexivity.
Defined.

Lemma handleUpdate_rejected_dropped_witness :
  (handleUpdate no_error world_rejected_sibling (data_update 1%positive)).2 = Return None
  ∧ cache_calls (handleUpdate no_error world_rejected_sibling (data_update 1%positive)).1
    = [Cache_Connect].
Proof.
  assert (Hvalid : valid_notification world_rejected_sibling 1%positive
                     (notification_of None
                        [update_of path_interface_eth0;
                         update_of path_netconf_state_capabilities])).
  { split; [reflexivity | intros p Hp; discriminate Hp]. }
  assert (Hin : update_of path_netconf_state_capabilities
                ∈ gnmipb.GetUpdate
                    (notification_of None
                       [update_of path_interface_eth0;
                        update_of path_netconf_state_capabilities])).
  { simpl. apply list_elem_of_further, list_elem_of_here. }
  assert (Hrej : is_Some (rejectUpdate_body
                            (update_of path_netconf_state_capabilities))).
  { eexists. reflexivity. }
  destruct (handleUpdate_rejected_dropped no_error _ _ _ _ Hvalid Hin Hrej)
    as (Hret & Hcalls & _).
  split; [exact Hret | exact Hcalls].
Defined.

(** C7 as stated fails: a data update without a prefix that the filter
    rejects is not handed to the cache target at all. *)
Lemma handleUpdate_rejected_not_forwarded :
  ¬ (∀ (GnmiUpdate_error : list CacheCall → option error)
       (w : World) (l : loc) (n : gnmipb.Notification),
       valid_notification w l n →
       gnmipb.Prefix n = None →
       ∃ n' path',
         Cache_GnmiUpdate l n' path'
         ∈ cache_calls (handleUpdate GnmiUpdate_error w (data_update l)).1
         ∧ gnmipb.Target path' = name (ts w)).
Proof.
  intros H.
  destruct (H no_error world_rejected_sibling 1%positive
              (notification_of None
                 [update_of path_interface_eth0;
                  update_of path_netconf_state_capabilities]))
    as (n' & path' & Hin & _).
  - split; [reflexivity | intros p Hp; discriminate Hp].
  - reflexivity.
  - assert (Hcalls :
      cache_calls (handleUpdate no_error world_rejected_sibling (data_update 1%positive)).1
      = [Cache_Connect]) by (vm_compute; reflexivity).
    rewrite Hcalls in Hin. apply list_elem_of_singleton in Hin.
    discriminate Hin.
Qed.

Lemma handleUpdate_forwards_with_designator_witness :
  ∃ n' path',
    cache_calls (handleUpdate no_error world_with_designator (data_update 1%positive)).1
    = [Cache_Connect; Cache_GnmiUpdate 1%positive n' path']
    ∧ gnmipb.Target path' = "router9".
Proof.
  destruct (handleUpdate_forwards_with_designator no_error
              world_with_designator 1%positive
              (notification_of (Some 7%positive) [update_of path_interface_eth0]))
    as (n' & path' & Hcalls & _ & _ & Hsame).
  - split; [reflexivity|].
    intros p [= <-]. eexists. reflexivity.
  - reflexivity.
  - exists n', path'. split; [exact Hcalls|].
    destruct (Hsame 7%positive
                {| gnmipb.Element := []; gnmipb.Origin := "openconfig";
                   gnmipb.Elem := []; gnmipb.Target := "router9" |}
                eq_refl eq_refl) as [_ ->]; [discriminate|reflexivity].
Defined.

(** C9 as stated fails: a sync response received while [connected] is false
    leaves [connected] true. *)
Lemma handleUpdate_sync_sets_connected :
  ¬ (∀ (GnmiUpdate_error : list CacheCall → option error)
       (w : World) (msg : Message),
       (∀ l, msg ≠ data_update l) →
       connected (ts w) = false →
       connected (ts (handleUpdate GnmiUpdate_error w msg).1) = false).
Proof.
  intros H.
  specialize (H no_error world_accepted sync_response).
  assert (Hc : connected
                 (ts (handleUpdate no_error world_accepted sync_response).1)
               = true) by reflexivity.
  rewrite H in Hc; [discriminate Hc | intros l Hl; discriminate Hl | reflexivity].
Qed.

Lemma handleUpdate_sets_connected_witness :
  connected (ts (handleUpdate no_error world_accepted sync_response).1) = true
  ∧ connected (ts (step NewQuery_ok no_error no_error no_error
                     world_accepted Op_disconnected).1) = false.
Proof.
  destruct (handleUpdate_sets_connected NewQuery_ok no_error no_error no_error)
    as [Hset Hkeep].
  split.
  - apply Hset.
  - apply Hkeep; [intros msg Hmsg; discriminate Hmsg | reflexivity].
Defined.

Lemma handleUpdate_defaults_prefix_in_place_witness :
  ∃ n' p path',
    notifications (handleUpdate no_error world_accepted (data_update 1%positive)).1 !! 1%positive
    = Some n'
    ∧ gnmipb.Prefix n' = Some p
    ∧ paths (handleUpdate no_error world_accepted (data_update 1%positive)).1 !! p
      = Some path'
    ∧ path' = set_Target "router1" gnmipb.Path_zero.
Proof.
  destruct (handleUpdate_defaults_prefix_in_place no_error world_accepted
              1%positive
              (notification_of None [update_of path_interface_eth0]))
    as (n' & p & path' & Hn & Hp & Hpath & _ & Hnil & _).
  - split; [reflexivity | intros p Hp; discriminate Hp].
  - exists n', p, path'. repeat (split; [assumption|]).
    by destruct (Hnil eq_refl).
Defined.

Lemma connectWithLock_guarded_exit_witness :
  ∃ t',
    connectWithLock NewQuery_ok no_error no_error sample_interference
      (new_TargetState "router1" target_with_credentials)
    = Some (Return (t', [Call_TryAcquire false; Call_TryAcquire true;
                         Call_Try false; Call_Try true; Call_connect;
                         Call_Release; Call_Unlock]))
    ∧ stopped t' = true
    ∧ Call_TryAcquire true ∈ [Call_TryAcquire false; Call_TryAcquire true;
                               Call_Try false; Call_Try true]
    ∧ (Call_connect
       ∉ [Call_TryAcquire false; Call_TryAcquire true; Call_Try false])
    ∧ connectWithLock NewQuery_ok no_error no_error
        [ {| slot_free := true; lock_free := true; disconnect_called := false |} ]
        (new_TargetState "router1" target_with_credentials)
      = None.
Proof.
  eexists. split; [vm_compute; reflexivity|].
  destruct (connectWithLock_guarded_exit NewQuery_ok no_error no_error)
    as [Hexit Hrunning].
  edestruct (Hexit sample_interference
               (new_TargetState "router1" target_with_credentials))
    as (Hst & Hguard & _ & _); [vm_compute; reflexivity|].
  split; [exact Hst|].
  split.
  { apply (Hguard [Call_TryAcquire false; Call_TryAcquire true;
                   Call_Try false; Call_Try true]
             [Call_Release; Call_Unlock] eq_refl). }
  split.
  - intros Hin.
    repeat (apply elem_of_cons in Hin as [Hin|Hin]; [discriminate Hin|]).
    by apply elem_of_nil in Hin.
  - apply Hrunning; [reflexivity|].
    constructor; [reflexivity | constructor].
Defined.

Lemma cache_connect_before_update_witness :
  (∃ pre1 pre2,
     take 2 (cache_calls
               (run NewQuery_ok no_error no_error no_error sample_ops
                  world_accepted).1)
     = pre1 ++ Cache_Connect :: pre2
     ∧ Cache_Disconnect ∉ pre2)
  ∧ Cache_Disconnect
    ∈ take 4 (drop 1 (cache_calls
                        (run NewQuery_ok no_error no_error no_error sample_ops
                           world_accepted).1)).
Proof.
  destruct (cache_connect_before_update NewQuery_ok no_error no_error no_error
              world_accepted sample_ops eq_refl eq_refl) as [Hdata Hconnect].
  split.
  - apply (Hdata _ Cache_Sync
             (drop 3 (cache_calls
                        (run NewQuery_ok no_error no_error no_error sample_ops
                           world_accepted).1))).
    + vm_compute. reflexivity.
    + left. reflexivity.
  - apply (Hconnect [] _ [Cache_Sync]). vm_compute. reflexivity.
Defined.

Lemma disconnect_stopped_idempotent_witness :
  (∃ t' e,
     disconnect no_error
       (ts (run NewQuery_ok no_error no_error no_error
              [Op_connect; Op_disconnect] world_accepted).1)
     = (t', Return e)
     ∧ stopped t' = true)
  ∧ stopped (ts (step NewQuery_ok no_error no_error no_error
                   (run NewQuery_ok no_error no_error no_error
                      [Op_connect; Op_disconnect] world_accepted).1
                   Op_connect).1) = true.
Proof.
  destruct (disconnect_stopped_idempotent NewQuery_ok no_error no_error no_error)
    as [Hagain Hmono].
  split.
  - apply (Hagain world_accepted _ [Op_connect; Op_disconnect]).
    + reflexivity.
    + vm_compute. reflexivity.
    + reflexivity.
  - apply Hmono. reflexivity.
Defined.

(** ** Concrete runs of the further properties *)

Lemma Equal_with_credentials_witness :
  Equal (new_TargetState "router1" target_with_credentials)
        target_with_credentials = Return true.
Proof.
  rewrite (Equal_with_credentials
             (new_TargetState "router1" target_with_credentials)
             target_with_credentials
             {| targetpb.Username := "admin"; targetpb.Password := "secret" |}
             {| targetpb.Username := "admin"; targetpb.Password := "secret" |}
             eq_refl eq_refl).
  reflexivity.
Defined.

Lemma Equal_addresses_differ_witness :
  Equal (new_TargetState "router1" target_with_credentials) target_reordered
  = Return false.
Proof.
  apply Equal_addresses_differ. simpl. intros H. discriminate H.
Defined.

Lemma rejectUpdate_first_error_witness :
  rejectUpdate
    (notification_of None
       [update_of path_interface_eth0;
        update_of path_netconf_state_capabilities;
        update_of path_interface_self])
  = Some (errors_New "bug for netconf-state path").
Proof.
  apply (rejectUpdate_first_error _
           [update_of path_interface_eth0]
           [update_of path_interface_self]
           (update_of path_netconf_state_capabilities)).
  - reflexivity.
  - intros v Hv. apply list_elem_of_singleton in Hv. rewrite Hv. reflexivity.
  - reflexivity.
Defined.

Lemma rejectUpdate_reads_only_paths_witness :
  rejectUpdate (notification_of None [update_of path_interface_self])
  = rejectUpdate
      (notification_of (Some 7%positive) [update_with_value path_interface_self]).
Proof.
  apply rejectUpdate_reads_only_paths. reflexivity.
Defined.

Lemma handleUpdate_nil_iff_witness :
  (handleUpdate no_error world_accepted (data_update 1%positive)).2 = Return None
  ∧ ∃ e, (handleUpdate no_error world_rejected_sibling
            (data_update 1%positive)).2 = Return e.
Proof.
  split.
  - apply (handleUpdate_nil_iff no_error world_accepted (data_update 1%positive)).
    + intros l [= <-]. eexists. split; [reflexivity|].
      intros p Hp. discriminate Hp.
    + right. eexists _, _. split; [reflexivity|]. split; [reflexivity|].
      right. reflexivity.
  - apply (handleUpdate_nil_iff no_error world_rejected_sibling
             (data_update 1%positive)).
    intros l [= <-]. eexists. split; [reflexivity|].
    intros p Hp. discriminate Hp.
Defined.

Lemma handleUpdate_other_messages_keep_stores_witness :
  notifications (handleUpdate no_error world_accepted sync_response).1
  = notifications world_accepted
  ∧ paths (handleUpdate no_error world_accepted sync_response).1
    = paths world_accepted.
Proof.
  apply handleUpdate_other_messages_keep_stores.
  intros l Hl. discriminate Hl.
Defined.

Lemma handleUpdate_twice_keeps_stores_witness :
  notifications
    (handleUpdate no_error
       (handleUpdate no_error world_accepted (data_update 1%positive)).1
       (data_update 1%positive)).1
  = notifications
      (handleUpdate no_error world_accepted (data_update 1%positive)).1
  ∧ paths
      (handleUpdate no_error
         (handleUpdate no_error world_accepted (data_update 1%positive)).1
         (data_update 1%positive)).1
    = paths (handleUpdate no_error world_accepted (data_update 1%positive)).1.
Proof.
  apply (handleUpdate_twice_keeps_stores no_error world_accepted 1%positive
           (notification_of None [update_of path_interface_eth0])).
  split; [reflexivity | intros p Hp; discriminate Hp].
Defined.

Lemma cache_Disconnect_Reset_paired_witness :
  (∃ post',
     drop 4 (cache_calls
               (run NewQuery_ok no_error no_error no_error sample_ops
                  world_accepted).1)
     = Cache_Reset :: post')
  ∧ ∃ pre',
      take 4 (cache_calls
                (run NewQuery_ok no_error no_error no_error sample_ops
                   world_accepted).1)
      = pre' ++ [Cache_Disconnect].
Proof.
  destruct (cache_Disconnect_Reset_paired NewQuery_ok no_error no_error no_error
              world_accepted sample_ops eq_refl) as [Hd Hr].
  split.
  - apply (Hd (take 3 (cache_calls
                         (run NewQuery_ok no_error no_error no_error sample_ops
                            world_accepted).1))).
    vm_compute. reflexivity.
  - apply (Hr _ (drop 5 (cache_calls
                           (run NewQuery_ok no_error no_error no_error sample_ops
                              world_accepted).1))).
    vm_compute. reflexivity.
Defined.

Lemma stopped_written_by_disconnect_only_witness :
  stopped (ts (step NewQuery_ok no_error no_error no_error
                 world_accepted Op_reconnect).1) = false
  ∧ stopped (ts (step NewQuery_ok no_error no_error no_error
                   world_accepted Op_disconnect).1) = true.
Proof.
  split.
  - apply (stopped_written_by_disconnect_only NewQuery_ok no_error no_error
             no_error world_accepted Op_reconnect).
    intros H. discriminate H.
  - apply (stopped_written_by_disconnect_only NewQuery_ok no_error no_error
             no_error world_accepted Op_disconnect).
    reflexivity.
Defined.

Lemma connecting_after_connect_witness :
  connecting
    (ts (run NewQuery_fails no_error no_error no_error
           [Op_connect; Op_handleUpdate sync_response] world_accepted).1)
  = true.
Proof.
  apply (connecting_after_connect NewQuery_fails no_error no_error no_error
           world_accepted _ [Op_connect; Op_handleUpdate sync_response]).
  - left.
  - vm_compute. reflexivity.
Defined.

Lemma no_client_before_connect_witness :
  client_
    (ts (run NewQuery_fails no_error no_error no_error
           [Op_connect; Op_handleUpdate sync_response] world_accepted).1)
  = None
  ∧ (disconnect no_error
       (ts (run NewQuery_fails no_error no_error no_error
              [Op_connect; Op_handleUpdate sync_response] world_accepted).1)).2
    = Panic
  ∧ (reconnect no_error
       (ts (run NewQuery_fails no_error no_error no_error
              [Op_connect; Op_handleUpdate sync_response] world_accepted).1)).2
    = Panic.
Proof.
  apply no_client_before_connect.
  - reflexivity.
  - right. intros t query H. discriminate H.
Defined.

Lemma connectWithLock_acquires_once_witness :
  (Call_TryAcquire false
   ∉ [Call_Try false; Call_Try true; Call_connect; Call_Release; Call_Unlock])
  ∧ (Call_Try false ∉ [Call_connect; Call_Release; Call_Unlock]).
Proof.
  edestruct (connectWithLock_acquires_once NewQuery_ok no_error no_error
               sample_interference
               (new_TargetState "router1" target_with_credentials))
    as [Hslot Hlock]; [vm_compute; reflexivity|].
  split.
  - apply (Hslot [Call_TryAcquire false] _ eq_refl).
  - apply (Hlock [Call_TryAcquire false; Call_TryAcquire true; Call_Try false]
             _ eq_refl).
Defined.

Lemma connectWithLock_lock_after_slot_witness :
  Call_TryAcquire true ∈ [Call_TryAcquire false; Call_TryAcquire true].
Proof.
  assert (Hret : ∃ t',
            connectWithLock NewQuery_ok no_error no_error sample_interference
              (new_TargetState "router1" target_with_credentials)
            = Some (Return (t', [Call_TryAcquire false; Call_TryAcquire true;
                                 Call_Try false; Call_Try true; Call_connect;
                                 Call_Release; Call_Unlock]))).
  { eexists. vm_compute. reflexivity. }
  destruct Hret as [t' Hret].
  apply (connectWithLock_lock_after_slot _ _ _ _ _ _ _ Hret
           [Call_TryAcquire false; Call_TryAcquire true] false
           [Call_Try true; Call_connect; Call_Release; Call_Unlock]).
  reflexivity.
Defined.

Lemma connectWithLock_release_order_witness :
  ∃ body tail,
    [Call_TryAcquire false; Call_TryAcquire true; Call_Try false;
     Call_Try true; Call_connect; Call_Release; Call_Unlock] = body ++ tail
    ∧ (tail = [] ∨ tail = [Call_Release] ∨ tail = [Call_Release; Call_Unlock])
    ∧ (Call_Release ∉ body) ∧ (Call_Unlock ∉ body).
Proof.
  eapply (connectWithLock_release_order NewQuery_ok no_error no_error
            sample_interference
            (new_TargetState "router1" target_with_credentials)).
  vm_compute. reflexivity.
Defined.

Lemma connectWithLock_disconnect_without_client_witness :
  connectWithLock NewQuery_ok no_error no_error standby_interference
    (new_TargetState "router1" target_with_credentials)
  = Some Panic.
Proof.
  apply connectWithLock_disconnect_without_client.
  - reflexivity.
  - reflexivity.
  - right. repeat constructor.
  - right. left. reflexivity.
Defined.


Lemma StartServer_outcome_witness :
  (StartServer libraries_port_in_use sample_ServerConfig).2
  = Server_returns (Some (fmt_Errorf "failed to listen: %v"))
  ∧ (Server_go_Serve ∉ (StartServer libraries_port_in_use sample_ServerConfig).1).
Proof.
  apply (StartServer_outcome libraries_port_in_use sample_ServerConfig);
    reflexivity.
Defined.
